(** * nodeplayer: the queue orchestrator and the local backend

    A shallow embedding of the two JavaScript sources of the repository:
    the player core (hook dispatch, queue, now-playing slot, playback
    timer) and the [local] backend (metadata guessing, preparation,
    catalog search).

    Conventions of the embedding.
    - A JavaScript value is a [value]. A number is a double: an integer,
      another rational, an infinity or [NaN]; arithmetic rounds to the
      nearest double, ties to even, and a number prints as the shortest
      digits that read back as itself. The two zeros are one value. An
      object is a plain one, which prints as "[object Object]".
    - The module-level singleton [_playerState] is threaded explicitly
      through a state-and-exception monad [M]; a [TypeError] raised by a
      property read on [null] / [undefined], and the [ReferenceError]
      raised by the read of a variable that is bound nowhere, are the
      [Throw] outcome.
    - Backends and timers answer later, on the event loop: a call of
      [prepareSong] or [setTimeout] records the continuation in the world
      and the continuation runs when the environment delivers the event;
      a [prepareSong] is answered once.
    - [console.log] is left out, but not the property reads in its
      argument, which can throw.
    - [this] is what JavaScript binds it to: in the constructor of the
      backend and in the closures made there, the instance; in the arrow
      functions assigned to [Local.prototype], the [this] of the module
      scope. *)

From stdpp Require Import base option list gmap strings.
From Stdlib Require Import ZArith Lia Ascii QArith Qround Qabs.

Open Scope string_scope.
Open Scope list_scope.
Open Scope Z_scope.

(** ** JavaScript values *)

Module JS.

(** An integer is [Int]; a number that is not an integer is [Frac], its
    rational in lowest terms. *)
Inductive num : Type :=
| Int (z : Z)
| Frac (q : Q)
| Inf (negative : bool)
| NaN.

Inductive value : Type :=
| VUndefined
| VNull
| VBool (b : bool)
| VNum (n : num)
| VStr (s : string)
| VObj (ref : string).

#[global] Instance Q_leibniz_dec : EqDecision Q.
Proof. solve_decision. Defined.

#[global] Instance num_eq_dec : EqDecision num.
Proof. solve_decision. Defined.

#[global] Instance value_eq_dec : EqDecision value.
Proof. solve_decision. Defined.

Definition TypeError : string := "TypeError".
Definition ReferenceError : string := "ReferenceError".

(** *** Doubles *)

Definition of_Q (q : Q) : num :=
  let r := Qred q in
  if Z.pos (Qden r) =? 1 then Int (Qnum r) else Frac r.

Definition finite (n : num) : option Q :=
  match n with
  | Int z => Some (inject_Z z)
  | Frac q => Some q
  | Inf _ | NaN => None
  end.

Definition pow2 (e : Z) : Q := Qpower (inject_Z 2) e.
Definition pow10 (e : Z) : Q := Qpower (inject_Z 10) e.

Definition Qltb (a b : Q) : bool := negb (Qle_bool b a).

(** For [a > 0], the [e] with [2^e <= a < 2^(e+1)]. *)
Definition floor_log2 (a : Q) : Z :=
  let e := Z.log2 (Qnum a) - Z.log2 (Z.pos (Qden a)) in
  if Qle_bool (pow2 e) a then e else e - 1.

Definition round_half_even (x : Q) : Z :=
  let d := Z.pos (Qden x) in
  let f := Qnum x / d in
  match 2 * (Qnum x mod d) ?= d with
  | Lt => f
  | Gt => f + 1
  | Eq => if Z.even f then f else f + 1
  end.

(** The double nearest to a rational: 53 bits of mantissa, the least
    exponent -1022 (below it the doubles are evenly spaced), and
    infinity from [2^1024] on. *)
Definition round64 (q : Q) : num :=
  if Qeq_bool q 0 then Int 0
  else
    let a := Qabs q in
    let ulp := pow2 (Z.max (floor_log2 a) (-1022) - 52) in
    let v := (inject_Z (round_half_even (a / ulp)) * ulp)%Q in
    if Qle_bool (pow2 1024) v then Inf (Qltb q 0)
    else of_Q (if Qltb q 0 then (- v)%Q else v).

Definition negative (n : num) : bool :=
  match n with
  | Int z => z <? 0
  | Frac q => Qltb q 0
  | Inf s => s
  | NaN => false
  end.

Definition is_zero (n : num) : bool :=
  match n with
  | Int z => z =? 0
  | Frac q => Qeq_bool q 0
  | Inf _ | NaN => false
  end.

(** [a + b] *)
Definition num_add (a b : num) : num :=
  match finite a, finite b with
  | Some x, Some y => round64 (x + y)
  | _, _ =>
      match a, b with
      | NaN, _ | _, NaN => NaN
      | Inf s, Inf t => if Bool.eqb s t then Inf s else NaN
      | Inf s, _ | _, Inf s => Inf s
      | _, _ => NaN
      end
  end.

(** [a * b] *)
Definition num_mul (a b : num) : num :=
  match finite a, finite b with
  | Some x, Some y => round64 (x * y)
  | _, _ =>
      match a, b with
      | NaN, _ | _, NaN => NaN
      | _, _ =>
          if is_zero a || is_zero b then NaN
          else Inf (xorb (negative a) (negative b))
      end
  end.

(** [a / b]; a zero divisor is taken as [+0]. *)
Definition num_div (a b : num) : num :=
  match finite a, finite b with
  | Some x, Some y =>
      if Qeq_bool y 0 then
        if Qeq_bool x 0 then NaN else Inf (Qltb x 0)
      else round64 (x / y)
  | Some _, None => match b with NaN => NaN | _ => Int 0 end
  | None, Some _ =>
      match a with
      | NaN => NaN
      | _ => Inf (xorb (negative a) (negative b))
      end
  | None, None => NaN
  end.

(** *** [String(n)]

    For a positive [x], the decimal [s * 10^e] with the fewest digits
    that reads back as [x], and of those the nearest to [x]. With [k]
    digits the two candidates are the multiples of [10^(p+1-k)] on
    either side of [x], where [10^p <= x < 10^(p+1)]; 17 digits always
    suffice. *)

Definition floor_log10 (a : Q) : Z :=
  let p := floor_log2 a * 30103 / 100000 - 1 in
  if Qltb a (pow10 (p + 1)) then p
  else if Qltb a (pow10 (p + 2)) then p + 1
  else if Qltb a (pow10 (p + 3)) then p + 2
  else p + 3.

Fixpoint shortest_from (fuel : nat) (x : Q) (p k : Z) : Z * Z :=
  let e := p + 1 - k in
  let unit := pow10 e in
  let lo := Qfloor (x / unit) in
  let hi := lo + 1 in
  let reads_back (s : Z) := bool_decide (round64 (inject_Z s * unit) = of_Q x) in
  match reads_back lo, reads_back hi with
  | true, true =>
      match (x - inject_Z lo * unit ?= inject_Z hi * unit - x)%Q with
      | Lt => (lo, e)
      | Gt => (hi, e)
      | Eq => (if Z.even lo then lo else hi, e)
      end
  | true, false => (lo, e)
  | false, true => (hi, e)
  | false, false =>
      match fuel with
      | O => (lo, e)
      | S fuel' => shortest_from fuel' x p (k + 1)
      end
  end.

Fixpoint strip_zeros (fuel : nat) (s e : Z) : Z * Z :=
  match fuel with
  | O => (s, e)
  | S fuel' =>
      if (s mod 10 =? 0) && negb (s =? 0) then strip_zeros fuel' (s / 10) (e + 1)
      else (s, e)
  end.

Definition shortest (x : Q) : Z * Z :=
  let '(s, e) := shortest_from 17 x (floor_log10 x) 1 in
  strip_zeros 20 s e.

Definition digit_char (d : Z) : ascii := ascii_of_nat (48 + Z.to_nat d).

Fixpoint decimal_from (fuel : nat) (n : Z) (acc : string) : string :=
  let acc := String (digit_char (n mod 10)) acc in
  match fuel with
  | O => acc
  | S fuel' => if n <? 10 then acc else decimal_from fuel' (n / 10) acc
  end.

(** The digits of a natural number. *)
Definition decimal (n : Z) : string := decimal_from (Z.to_nat (Z.log2 n)) n "".

Fixpoint zeros (n : nat) : string :=
  match n with
  | O => ""
  | S n' => String "0" (zeros n')
  end.

(** With [k] digits [ds] and [n = k + e] the position of the point:
    plain digits when [0 < n <= 21], "0.00ds" when [-6 < n <= 0], the
    exponent form otherwise. *)
Definition positive_to_string (x : Q) : string :=
  let '(s, e) := shortest x in
  let ds := decimal s in
  let k := Z.of_nat (String.length ds) in
  let n := k + e in
  if (k <=? n) && (n <=? 21) then ds +:+ zeros (Z.to_nat (n - k))
  else if (0 <? n) && (n <=? 21) then
    String.substring 0 (Z.to_nat n) ds +:+ "."
      +:+ String.substring (Z.to_nat n) (Z.to_nat (k - n)) ds
  else if (-6 <? n) && (n <=? 0) then "0." +:+ zeros (Z.to_nat (- n)) +:+ ds
  else
    let exponent := (if n - 1 <? 0 then "-" else "+") +:+ decimal (Z.abs (n - 1)) in
    match ds with
    | String c "" => String c ("e" +:+ exponent)
    | String c rest => String c ("." +:+ rest +:+ "e" +:+ exponent)
    | "" => ""
    end.

Definition finite_to_string (q : Q) : string :=
  if Qeq_bool q 0 then "0"
  else if Qltb q 0 then "-" +:+ positive_to_string (Qabs q)
  else positive_to_string q.

Definition num_to_string (n : num) : string :=
  match n with
  | Int z => finite_to_string (inject_Z z)
  | Frac q => finite_to_string q
  | Inf false => "Infinity"
  | Inf true => "-Infinity"
  | NaN => "NaN"
  end.

(** [String(v)] *)
Definition ToString (v : value) : string :=
  match v with
  | VUndefined => "undefined"
  | VNull => "null"
  | VBool true => "true"
  | VBool false => "false"
  | VNum n => num_to_string n
  | VStr s => s
  | VObj _ => "[object Object]"
  end.

(** [ToBoolean]: what [if (v)] and [!v] look at. *)
Definition truthy (v : value) : bool :=
  match v with
  | VUndefined | VNull => false
  | VBool b => b
  | VNum NaN => false
  | VNum n => negb (is_zero n)
  | VStr s => negb (String.eqb s "")
  | VObj _ => true
  end.

(** [a === b]: same type and same value; [NaN] differs from itself and
    objects are compared by reference. *)
Definition strict_eq (a b : value) : bool :=
  match a, b with
  | VUndefined, VUndefined => true
  | VNull, VNull => true
  | VBool x, VBool y => Bool.eqb x y
  | VNum (Int x), VNum (Int y) => x =? y
  | VNum (Frac x), VNum (Frac y) => bool_decide (x = y)
  | VNum (Inf x), VNum (Inf y) => Bool.eqb x y
  | VStr x, VStr y => String.eqb x y
  | VObj x, VObj y => String.eqb x y
  | _, _ => false
  end.

(** *** [parseInt] with no radix argument *)

Definition is_space (c : ascii) : bool :=
  let n := nat_of_ascii c in
  ((9 <=? n) && (n <=? 13) || (n =? 32) || (n =? 160))%nat.

Definition digit_of (radix : Z) (c : ascii) : option Z :=
  let n := Z.of_nat (nat_of_ascii c) in
  let d :=
    if (48 <=? n) && (n <=? 57) then Some (n - 48)
    else if (97 <=? n) && (n <=? 122) then Some (n - 87)
    else if (65 <=? n) && (n <=? 90) then Some (n - 55)
    else None in
  match d with
  | Some k => if k <? radix then Some k else None
  | None => None
  end.

Fixpoint skip_spaces (s : string) : string :=
  match s with
  | String c s' => if is_space c then skip_spaces s' else s
  | EmptyString => s
  end.

(** The longest prefix of digits, most significant first. *)
Fixpoint digits (radix : Z) (acc : option Z) (s : string) : option Z :=
  match s with
  | String c s' =>
      match digit_of radix c with
      | Some d => digits radix (Some (radix * default 0 acc + d)) s'
      | None => acc
      end
  | EmptyString => acc
  end.

Definition unsigned_int (s : string) : option Z :=
  match s with
  | String "0" (String "x" s') | String "0" (String "X" s') =>
      digits 16 None s'
  | _ => digits 10 None s
  end.

(** The integer the digits spell, as the double nearest to it. *)
Definition parseInt_string (s : string) : num :=
  let s := skip_spaces s in
  let '(sign, s) :=
    match s with
    | String "-" s' => (-1, s')
    | String "+" s' => (1, s')
    | _ => (1, s)
    end in
  match unsigned_int s with
  | Some n => round64 (inject_Z (sign * n))
  | None => NaN
  end.

(** [parseInt(v)] reads the digits at the head of [String(v)]. *)
Definition parseInt (v : value) : num := parseInt_string (ToString v).

Arguments round64 : simpl never.
Arguments num_add : simpl never.
Arguments num_mul : simpl never.
Arguments num_div : simpl never.
Arguments num_to_string : simpl never.
Arguments parseInt : simpl never.

End JS.

Import JS.

(** ** The player core *)

Module Core.

(** A song object, with the properties the core reads or writes.
    [backend] is the property key the song names its backend by. *)
Record Song : Type := mkSong {
  title : value;
  id : value;
  duration : value;
  backend : string;
  upVotes : gset string;
  downVotes : gset string;
  oldness : Z;
  playbackStart : option Z;
}.

(** [_playerState], less the [modules] registry, which is kept beside
    it so that a hook can take the state as its argument. *)
Record PlayerState : Type := mkPlayerState {
  queue : list Song;
  nowPlaying : option Song;
  backends : gset string;
}.

(** What a hook is applied to after the player state. *)
Inductive hookarg : Type :=
| ArgNone
| ArgSong (s : Song)
| ArgIndex (i : Z)
| ArgName (n : string).

(** A hook reads the state it is handed and answers a value; the
    queue and the slot are written by the core alone. *)
Definition hookfn : Type := PlayerState → hookarg → value.

(** A module maps a hook name to its implementation, when it has one;
    [modules] lists the registry in the order [_.find] walks it. *)
Definition Module_ : Type := string → option hookfn.

(** The closure handed to [prepareSong]: the pair of callbacks of the
    now-playing song, which captured [startPlayingNext], or the pair of
    the queue head. *)
Inductive cont : Type :=
| KNowPlaying (startPlayingNext : bool)
| KNext.

Record pending : Type := mkPending {
  p_backend : string;
  p_song : value;
  p_cont : cont;
}.

Inductive event : Type :=
| EvDispatch (hook : string)
| EvHook (module hook : string)
| EvQueueModify
| EvPrepareSong (backend : string) (songID : value)
| EvSetTimeout (delay : num).

#[global] Instance event_eq_dec : EqDecision event.
Proof. solve_decision. Defined.

(** The player state together with the event loop's pending work and
    the trace of what was called. *)
Record World : Type := mkWorld {
  state : PlayerState;
  preparing : list pending;
  timers : list num;
  trace : list event;
}.

Inductive result (A : Type) : Type :=
| Ok (a : A) (w : World)
| Throw (err : string) (w : World).
Arguments Ok {A} a w.
Arguments Throw {A} err w.

Definition world_of {A} (r : result A) : World :=
  match r with Ok _ w | Throw _ w => w end.

Definition M (A : Type) : Type := World → result A.

#[global] Instance M_ret : MRet M := λ A a w, Ok a w.
#[global] Instance M_bind : MBind M := λ A B f c w,
  match c w with
  | Ok a w' => f a w'
  | Throw e w' => Throw e w'
  end.

#[global] Typeclasses Opaque M.

Definition throw {A} (err : string) : M A := λ w, Throw err w.
Definition get : M PlayerState := λ w, Ok (state w) w.
Definition put (st : PlayerState) : M unit := λ w,
  Ok () (mkWorld st (preparing w) (timers w) (trace w)).
Definition emit (e : event) : M unit := λ w,
  Ok () (mkWorld (state w) (preparing w) (timers w) (trace w ++ [e])).
Definition emits (es : list event) : M unit := λ w,
  Ok () (mkWorld (state w) (preparing w) (timers w) (trace w ++ es)).

Definition set_queue (q : list Song) (st : PlayerState) : PlayerState :=
  mkPlayerState q (nowPlaying st) (backends st).
Definition set_nowPlaying (np : option Song) (st : PlayerState) : PlayerState :=
  mkPlayerState (queue st) np (backends st).
Definition set_playbackStart (t : option Z) (s : Song) : Song :=
  mkSong (title s) (id s) (duration s) (backend s)
         (upVotes s) (downVotes s) (oldness s) t.

(** [setTimeout(f, delay)]: the one callback the core ever arms is the
    end-of-song one, so a timer is its delay. *)
Definition setTimeout (delay : num) : M unit := λ w,
  Ok () (mkWorld (state w) (preparing w) (timers w ++ [delay])
                 (trace w ++ [EvSetTimeout delay])).

(** [_playerState.backends[name].prepareSong(songID, k_ok, k_err)]:
    reading [prepareSong] off an unregistered backend throws. *)
Definition request (p : pending) : M unit := λ w,
  Ok () (mkWorld (state w) (preparing w ++ [p]) (timers w)
                 (trace w ++ [EvPrepareSong (p_backend p) (p_song p)])).

Definition prepareSong (name : string) (songID : value) (k : cont) : M unit :=
  st ← get;
  if decide (name ∈ backends st) then request (mkPending name songID k)
  else throw TypeError.

(** [queue.splice(i, 1)] at the first [i] whose song has the id. *)
Fixpoint splice_first (songID : value) (q : list Song) : list Song :=
  match q with
  | [] => []
  | s :: q' =>
      if strict_eq (id s) songID then q' else s :: splice_first songID q'
  end.

Fixpoint find_id (songID : value) (q : list Song) : option Song :=
  match q with
  | [] => None
  | s :: q' => if strict_eq (id s) songID then Some s else find_id songID q'
  end.

(** The entries of the queue and of the slot that carry the id. *)
Definition count_id (songID : value) (st : PlayerState) : nat :=
  length (filter (λ s, strict_eq (id s) songID = true) (queue st))
  + match nowPlaying st with
    | Some np => if strict_eq (id np) songID then 1 else 0
    | None => 0
    end.

(** The head of the queue moves into an empty slot, and the first later
    entry with its id (if any) is spliced out. *)
Definition promote (st : PlayerState) : PlayerState :=
  match queue st, nowPlaying st with
  | head :: rest, None =>
      mkPlayerState (splice_first (id head) rest) (Some head) (backends st)
  | _, _ => st
  end.

(** How often a hook name was dispatched, and how often the queue
    handler was entered, along a trace. *)
Definition dispatches (hook : string) (tr : list event) : nat :=
  count_occ event_eq_dec tr (EvDispatch hook).

Definition entries (tr : list event) : nat :=
  count_occ event_eq_dec tr EvQueueModify.

Section Orchestrator.

Variable modules : list (string * Module_).
Variable songDelayMs : Z.

(** [_.find(modules, predicate)]: the first module on which the
    predicate is truthy, and the modules whose hook ran on the way. *)
Fixpoint find_module (hook : string) (st : PlayerState) (arg : hookarg)
    (ms : list (string * Module_)) : list event * value :=
  match ms with
  | [] => ([], VUndefined)
  | (name, m) :: ms' =>
      match m hook with
      | Some f =>
          if truthy (f st arg) then ([EvHook name hook], VObj name)
          else
            let '(evs, r) := find_module hook st arg ms' in
            (EvHook name hook :: evs, r)
      | None => find_module hook st arg ms'
      end
  end.

(** What one dispatch adds to the trace, and what it answers. *)
Definition hook_events (hook : string) (st : PlayerState) (arg : hookarg)
  : list event := EvDispatch hook :: (find_module hook st arg modules).1.

Definition hook_result (hook : string) (st : PlayerState) (arg : hookarg)
  : value := (find_module hook st arg modules).2.

(** The modules of a list that implement the hook, as invocations. *)
Definition invoked (hook : string) (ms : list (string * Module_)) : list event :=
  omap (λ '(name, m), match m hook with
                      | Some _ => Some (EvHook name hook)
                      | None => None
                      end) ms.

(** No module of the list answers the hook with a truthy value. *)
Definition all_falsy (hook : string) (st : PlayerState) (arg : hookarg)
    (ms : list (string * Module_)) : Prop :=
  ∀ name m f, (name, m) ∈ ms → m hook = Some f → truthy (f st arg) = false.

Definition _callHooks (hook : string) (arg : hookarg) : M value :=
  st ← get;
  let '(evs, r) := find_module hook st arg modules in
  emits (EvDispatch hook :: evs);;
  mret r.

Definition _searchQueue (songID : value) : M (option Song) :=
  st ← get;
  match find_id songID (queue st) with
  | Some s => mret (Some s)
  | None =>
      match nowPlaying st with
      | Some np => if strict_eq (id np) songID then mret (Some np) else mret None
      | None => mret None
      end
  end.

Definition _removeFromQueue (songID : value) : M unit :=
  st ← get;
  put (set_queue (splice_first songID (queue st)) st).

Definition _initializeSong (song : Song) : M Song :=
  let song := mkSong (title song) (id song) (duration song) (backend song)
                     ∅ ∅ 0 None in
  st ← get;
  put (set_queue (queue st ++ [song]) st);;
  mret song.

Definition _onQueueModify : M unit :=
  emit EvQueueModify;;
  st ← get;
  match queue st with
  | [] => _callHooks "onEndOfQueue" ArgNone;; mret ()
  | head :: rest =>
      startPlayingNext ←
        match nowPlaying st with
        | None =>
            put (set_nowPlaying (Some head) (set_queue rest st));;
            _removeFromQueue (id head);;
            mret true
        | Some _ => mret false
        end;
      st ← get;
      match nowPlaying st with
      | Some np => prepareSong (backend np) (id np) (KNowPlaying startPlayingNext)
      | None => throw TypeError
      end
  end.

(** The success callback of the now-playing preparation; [now] is
    what [new Date()] reads when it runs. *)
Definition onPrepared (startPlayingNext : bool) (now : Z) : M unit :=
  _callHooks "onSongPrepared" ArgNone;;
  (if startPlayingNext then
     st ← get;
     match nowPlaying st with
     | Some np =>
         put (set_nowPlaying (Some (set_playbackStart (Some now) np)) st);;
         _callHooks "onSongChange" ArgNone;;
         setTimeout (num_add (parseInt (duration np)) (Int songDelayMs))
     | None => throw TypeError
     end
   else mret ());;
  st ← get;
  match queue st with
  | next :: _ => prepareSong (backend next) (id next) KNext
  | [] => _callHooks "onNothingToPrepare" ArgNone;; mret ()
  end.

(** The error callback of the now-playing preparation. *)
Definition onPrepareError : M unit :=
  st ← get;
  match nowPlaying st with
  | Some np =>
      _callHooks "onSongPrepareError" ArgNone;;
      st ← get;
      match nowPlaying st with
      | Some np => _removeFromQueue (id np)
      | None => throw TypeError
      end
  | None => throw TypeError
  end.

Definition onNextPrepared : M unit :=
  _callHooks "onNextSongPrepared" (ArgIndex 0);; mret ().

Definition onNextPrepareError : M unit :=
  st ← get;
  match queue st with
  | _ :: _ =>
      _callHooks "onNextSongPrepareError" (ArgIndex 0);;
      st ← get;
      match queue st with
      | next :: _ => _removeFromQueue (id next)
      | [] => throw TypeError
      end
  | [] => throw TypeError
  end.

(** The function handed to [setTimeout]. *)
Definition onTimeout : M unit :=
  st ← get;
  match nowPlaying st with
  | Some _ =>
      _callHooks "onSongEnd" ArgNone;;
      st ← get;
      put (set_nowPlaying None st);;
      _onQueueModify
  | None => throw TypeError
  end.

(** [req.body.userID]. [req] is not a parameter of [_addToQueue], no
    [var] or function of the module declares it and nothing defines a
    global of that name: the read of [req] throws before any property
    is looked up. *)
Definition req_body_userID : M value := throw ReferenceError.

(** The ways out are the error strings, the answer of [_callHooks] when
    it is truthy, [undefined], and what is thrown on the way. *)
Definition _addToQueue (song : Song) : M value :=
  if negb (truthy (title song)) || negb (truthy (id song))
     || negb (truthy (duration song))
  then mret (VStr "required song fields not provided")
  else
    userID ← req_body_userID;
    if negb (truthy userID) then mret (VStr "invalid userID")
    else
      queuedSong ← _searchQueue (id song);
      match queuedSong with
      | Some _ => mret (VStr "duplicate songID")
      | None =>
          err ← _callHooks "preSongQueued" (ArgSong song);
          if truthy err then mret err
          else
            queuedSong ← _initializeSong song;
            _onQueueModify;;
            _callHooks "postSongQueued" (ArgSong queuedSong);;
            mret VUndefined
      end.

(** *** The event loop *)

Inductive outcome : Type :=
| Prepared (now : Z)
| Failed.

Definition run_cont (k : cont) (o : outcome) : M unit :=
  match k, o with
  | KNowPlaying b, Prepared now => onPrepared b now
  | KNowPlaying _, Failed => onPrepareError
  | KNext, Prepared _ => onNextPrepared
  | KNext, Failed => onNextPrepareError
  end.

(** The backend answers the [i]-th outstanding [prepareSong], which is
    then no longer outstanding. *)
Definition answer (i : nat) (o : outcome) : M unit := λ w,
  match preparing w !! i with
  | Some p =>
      run_cont (p_cont p) o
        (mkWorld (state w) (delete i (preparing w)) (timers w) (trace w))
  | None => Ok () w
  end.

(** The [i]-th armed timer expires. *)
Definition expire (i : nat) : M unit := λ w,
  match timers w !! i with
  | Some _ =>
      onTimeout (mkWorld (state w) (preparing w) (delete i (timers w)) (trace w))
  | None => Ok () w
  end.

End Orchestrator.

(** *** Sample data: the scenarios the specification walks through *)

(** [{id: "s1", title: "T", duration: 1000}], served by [local]. *)
Definition song_s1 : Song :=
  mkSong (VStr "T") (VStr "s1") (VNum (Int 1000)) "local" ∅ ∅ 0 None.

Definition idle_world (q : list Song) : World :=
  mkWorld (mkPlayerState q None {["local"]}) [] [] [].

(** A song object whose title is the empty string. *)
Definition song_untitled : Song :=
  mkSong (VStr "") (VStr "s2") (VNum (Int 1000)) "local" ∅ ∅ 0 None.

(** A module whose only hook is [hook], answering [answer]. *)
Definition single_hook (hook : string) (answer : value) : Module_ :=
  λ h, if String.eqb h hook then Some (λ _ _, answer) else None.

(** Modules [A → falsy, B → "err", C → truthy]. *)
Definition modules_ABC (hook : string) : list (string * Module_) :=
  [("A", single_hook hook VUndefined);
   ("B", single_hook hook (VStr "err"));
   ("C", single_hook hook (VBool true))].

End Core.

(** ** Node's [path] module (POSIX flavour) and the string methods used

    A string is the list of its code units, each below 256. *)

Module Path.

Abbreviation str := (list ascii).

Definition chars (s : string) : str := String.list_ascii_of_string s.

Definition is_slash (c : ascii) : bool := Ascii.eqb c "/".

Fixpoint skip_slashes (l : str) : str :=
  match l with
  | c :: l' => if is_slash c then skip_slashes l' else l
  | [] => []
  end.

(** The code units before the first slash, and the rest from it on. *)
Fixpoint until_slash (l : str) : str :=
  match l with
  | c :: l' => if is_slash c then [] else c :: until_slash l'
  | [] => []
  end.

Fixpoint from_slash (l : str) : str :=
  match l with
  | c :: l' => if is_slash c then l else from_slash l'
  | [] => []
  end.

(** [path.basename(p)]: the last component, trailing slashes ignored. *)
Definition basename (p : str) : str :=
  reverse (until_slash (skip_slashes (reverse p))).

Definition trailing_slashes (p : str) : str :=
  repeat "/"%char (length p - length (skip_slashes (reverse p))).

Definition is_suffix (suffix l : str) : bool :=
  (length suffix <=? length l)%nat
  && bool_decide (drop (length l - length suffix) l = suffix).

(** [path.basename(p, ext)]: the scan walks the last component from its
    end, matching [ext] from its end. A full match that leaves
    something is cut off; a component that is [ext] itself is kept; a
    component that runs out while [ext] still matches comes back with
    the trailing slashes of [p]. *)
Definition basename_ext (p ext : str) : str :=
  if bool_decide (ext = []) || (length p <? length ext)%nat then basename p
  else if bool_decide (ext = p) then []
  else
    let comp := basename p in
    if is_suffix ext comp then
      if bool_decide (comp = ext) then comp
      else take (length comp - length ext) comp
    else if is_suffix comp ext then comp ++ trailing_slashes p
    else comp.

(** [path.dirname(p)]: everything before the slash that precedes the
    last component; the scan never looks at index 0. *)
Definition dirname (p : str) : str :=
  match p with
  | [] => chars "."
  | c0 :: t =>
      match from_slash (skip_slashes (reverse t)) with
      | _ :: before =>
          if is_slash c0 && bool_decide (before = []) then chars "//"
          else c0 :: reverse before
      | [] => if is_slash c0 then chars "/" else chars "."
      end
  end.

(** [s.split(sep)] for a one-unit separator. *)
Fixpoint split (sep : ascii) (s : str) : list str :=
  match s with
  | [] => [[]]
  | c :: s' =>
      if Ascii.eqb c sep then [] :: split sep s'
      else
        match split sep s' with
        | piece :: pieces => (c :: piece) :: pieces
        | [] => [[c]]
        end
  end.

Fixpoint skip_space (l : str) : str :=
  match l with
  | c :: l' => if is_space c then skip_space l' else l
  | [] => []
  end.

(** [s.trim()] *)
Definition trim (s : str) : str := reverse (skip_space (reverse (skip_space s))).

End Path.

(** ** The local backend *)

Module Local.
Import Path.

(** *** Metadata guessed from the file path *)

Record Metadata : Type := mkMetadata {
  artist : option str;
  title : option str;
  album : str;
}.

Definition guessMetadataFromPath (filePath fileExt : str) : Metadata :=
  let fileName := basename_ext filePath fileExt in
  let splitName := split "-" fileName in
  let splitName := trim <$> splitName in
  {| artist := splitName !! 0%nat;
     title := splitName !! 1%nat;
     album := basename (dirname filePath) |}.

(** A tag as the probe hands it over: absent, a text, or a number when
    the text is all digits. *)
Inductive tag : Type :=
| NoTag
| Text (s : str)
| Number (n : num).

(** What [ffprobe] reports for a file: its path and extension, the
    three tags read by [insertSong], and of the format the duration in
    seconds, a number, and the name. *)
Record ProbeData : Type := mkProbeData {
  file : str;
  fileext : str;
  TITLE : tag;
  ARTIST : tag;
  ALBUM : tag;
  format_duration : Q;
  format_name : str;
}.

(** A document of the [Song] collection, less its [_id]; a field that
    is [None] is not there. *)
Record SongDoc : Type := mkSongDoc {
  d_title : option str;
  d_artist : option str;
  d_album : option str;
  d_duration : num;
  d_format : str;
  d_filename : str;
}.

Definition tag_truthy (t : tag) : bool :=
  match t with
  | NoTag => false
  | Text s => negb (bool_decide (s = []))
  | Number n => truthy (VNum n)
  end.

(** [a || b] *)
Definition or_else (a b : tag) : tag := if tag_truthy a then a else b.

(** A piece of the guess: a string, or [undefined]. *)
Definition guessed (piece : option str) : tag :=
  match piece with
  | Some s => Text s
  | None => NoTag
  end.

(** What a [String] path of the schema keeps of the value given to
    [new SongModel]: nothing of [undefined], the text of a number. *)
Definition cast_String (t : tag) : option str :=
  match t with
  | NoTag => None
  | Text s => Some s
  | Number n => Some (chars (num_to_string n))
  end.

(** The object [song] of [insertSong]: [new SongModel({...})], taken
    [toObject] and less its [_id]. *)
Definition song_of (probeData : ProbeData) : SongDoc :=
  let guessMetadata := guessMetadataFromPath (file probeData) (fileext probeData) in
  {| d_title := cast_String (or_else (TITLE probeData) (guessed (title guessMetadata)));
     d_artist := cast_String (or_else (ARTIST probeData) (guessed (artist guessMetadata)));
     d_album := cast_String (or_else (ALBUM probeData) (Text (album guessMetadata)));
     d_duration := round64 (format_duration probeData * inject_Z 1000);
     d_format := format_name probeData;
     d_filename := file probeData |}.

Definition or_kept (new old : option str) : option str :=
  match new with
  | Some _ => new
  | None => old
  end.

(** [SongModel.findOneAndUpdate({filename}, song, {upsert: true})]: the
    fields [song] has are set on the document filed under the name,
    which is made when there is none; a field [song] lacks stays as it
    is. *)
Definition findOneAndUpdate (filename : str) (song : SongDoc)
    (songs : gmap str SongDoc) : gmap str SongDoc :=
  let doc :=
    match songs !! filename with
    | Some old =>
        mkSongDoc (or_kept (d_title song) (d_title old))
                  (or_kept (d_artist song) (d_artist old))
                  (or_kept (d_album song) (d_album old))
                  (d_duration song) (d_format song) (d_filename song)
    | None => song
    end in
  <[filename := doc]> songs.

Definition insertSong (probeData : ProbeData) (songs : gmap str SongDoc)
  : gmap str SongDoc :=
  findOneAndUpdate (file probeData) (song_of probeData) songs.

(** A file with no tags at all. *)
Definition untagged (path ext : string) : ProbeData :=
  mkProbeData (chars path) (chars ext) NoTag NoTag NoTag (inject_Z 215)
              (chars "flac").

(** The reading under test: the base name, extension removed, is cut at
    its first " - "; the artist is what stands before it and the title
    all that follows. *)
Fixpoint cut_first_separator (s : str) : option (str * str) :=
  match s with
  | [] => None
  | c :: s' =>
      match s with
      | " "%char :: "-"%char :: " "%char :: after => Some ([], after)
      | _ =>
          match cut_first_separator s' with
          | Some (before, after) => Some (c :: before, after)
          | None => None
          end
      end
  end.

Definition guess_first_separator (filePath fileExt : str) : Metadata :=
  let fileName := basename_ext filePath fileExt in
  match cut_first_separator fileName with
  | Some (before, after) =>
      mkMetadata (Some before) (Some after) (basename (dirname filePath))
  | None => mkMetadata (Some fileName) None (basename (dirname filePath))
  end.

(** *** [this] in the methods

    [isPrepared], [prepare] and [search] are arrow functions, written
    at the top level of the module: the [this] they read, and bind
    [self] to, is the one of the module scope, whatever object they are
    called on. That object is [exports] as the loader made it, [{}];
    [module.exports = Local] puts the constructor in its place and
    leaves it as it is.

    The object is recorded by the properties the methods read off it; a
    property that is not there reads as [undefined], here [None] or
    [false]. *)

Record Config : Type := mkConfig {
  searchResultCnt : Z;
  maxScore : num;
}.

Record Self : Type := mkSelf {
  songsPreparing : option (gmap string nat);
  isPrepared_fn : bool;
  encodeSong_fn : bool;
  songCachePath : option str;
  config : option Config;
}.

Definition exports : Self := mkSelf None false false None None.

Definition set_songsPreparing (table : gmap string nat) (o : Self) : Self :=
  mkSelf (Some table) (isPrepared_fn o) (encodeSong_fn o) (songCachePath o)
         (config o).

(** *** Preparation

    Every [song.prepare] object ever attached is kept, in allocation
    order; callers are told apart by a number. *)

Record Handle : Type := mkHandle {
  h_songId : string;
  dataLength : Z;
  dataPos : Z;
  canceled : bool;
  cancelEncode : bool;
}.

(** [canceled = true] and [cancelEncode = encodeSong(...)], the two
    assignments to the variables the handle's closures share. *)
Definition set_canceled (hd : Handle) : Handle :=
  mkHandle (h_songId hd) (dataLength hd) (dataPos hd) true (cancelEncode hd).

Definition set_cancelEncode (hd : Handle) : Handle :=
  mkHandle (h_songId hd) (dataLength hd) (dataPos hd) (canceled hd) true.

Inductive signal : Type :=
| Done (prepared : bool)
| Error (message : string).

Inductive event : Type :=
| EvCallback (caller : nat) (s : signal)
| EvFindById (songId : string)
| EvEncodeSong (handle : nat) (filename : str)
| EvCancelEncode (handle : nat).

#[global] Instance signal_eq_dec : EqDecision signal.
Proof. solve_decision. Defined.

#[global] Instance event_eq_dec : EqDecision event.
Proof. solve_decision. Defined.

(** A [findById] in flight, with the closure of its callback: the
    handle whose [canceled] and [cancelEncode] it reads and writes, and
    the caller's [callback]. *)
Record Lookup : Type := mkLookup {
  l_handle : nat;
  l_caller : nat;
}.

(** The object [self] is bound to, the song cache on disk (the ids of
    the songs whose file is there), and what the event loop still owes
    the backend. *)
Record Backend : Type := mkBackend {
  self : Self;
  cache : gset string;
  handles : list Handle;
  lookups : list Lookup;
  streams : list Lookup;
  trace : list event;
}.

(** The backend once the module is loaded. *)
Definition loaded (cache : gset string) : Backend :=
  mkBackend exports cache [] [] [] [].

(** How a call ends: it returns, or it throws. *)
Inductive completion : Type :=
| Returns (b : Backend)
| Throws (err : string) (b : Backend).

Definition after (c : completion) : Backend :=
  match c with
  | Returns b | Throws _ b => b
  end.

Definition log (e : event) (b : Backend) : Backend :=
  mkBackend (self b) (cache b) (handles b) (lookups b) (streams b)
            (trace b ++ [e]).

(** [isPrepared(song)]: [path.join] throws on an argument that is not a
    string; [None] is that [TypeError]. *)
Definition isPrepared (songId : string) (b : Backend) : option bool :=
  match songCachePath (self b) with
  | Some _ => Some (bool_decide (songId ∈ cache b))
  | None => None
  end.

Definition canceled_message : string :=
  "song was canceled before encoding started".

Definition not_found_message (songId : string) : string :=
  "song not found in local db: " +:+ songId.

(** [prepare(song, callback)]. The first thing read is
    [self.songsPreparing[song.songId]], which throws when [self] has no
    [songsPreparing]; [self.isPrepared(song)] throws when [self] has no
    [isPrepared]. *)
Definition prepare (songId : string) (caller : nat) (b : Backend) : completion :=
  match songsPreparing (self b) with
  | None => Throws TypeError b
  | Some table =>
      match table !! songId with
      | Some _ => Returns (log (EvCallback caller (Done false)) b)
      | None =>
          if isPrepared_fn (self b) then
            match isPrepared songId b with
            | None => Throws TypeError b
            | Some true => Returns (log (EvCallback caller (Done true)) b)
            | Some false =>
                let h := length (handles b) in
                Returns
                  (mkBackend (set_songsPreparing (<[songId := h]> table) (self b))
                     (cache b)
                     (handles b ++ [mkHandle songId (1024 * 1024) 0 false false])
                     (lookups b ++ [mkLookup h caller])
                     (streams b)
                     (trace b ++ [EvFindById songId]))
            end
          else Throws TypeError b
      end
  end.

(** [song.prepare.cancel()], for a handle that was attached. *)
Definition cancel (h : nat) (b : Backend) : Backend :=
  match handles b !! h with
  | Some hd =>
      let b' :=
        mkBackend (self b) (cache b)
                  (<[h := set_canceled hd]> (handles b))
                  (lookups b) (streams b) (trace b) in
      if cancelEncode hd then log (EvCancelEncode h) b' else b'
  | None => b
  end.

(** The callback of [findById] runs for the [i]-th lookup in flight;
    [item] is the document found, by its [filename]. The call of
    [self.encodeSong] throws when [self] has no [encodeSong]; when it
    has, the call is recorded and what it hands back is kept as the
    [cancelEncode] of the handle. *)
Definition found (i : nat) (item : option str) (b : Backend) : completion :=
  match lookups b !! i with
  | Some l =>
      match handles b !! l_handle l with
      | Some hd =>
          let b := mkBackend (self b) (cache b) (handles b)
                             (delete i (lookups b)) (streams b) (trace b) in
          if canceled hd then
            Returns (log (EvCallback (l_caller l) (Error canceled_message)) b)
          else
            match item with
            | Some filename =>
                if encodeSong_fn (self b) then
                  Returns
                    (mkBackend (self b) (cache b)
                       (<[l_handle l := set_cancelEncode hd]> (handles b))
                       (lookups b) (streams b ++ [l])
                       (trace b ++ [EvEncodeSong (l_handle l) filename]))
                else Throws TypeError b
            | None =>
                Returns (log (EvCallback (l_caller l)
                                (Error (not_found_message (h_songId hd)))) b)
            end
      | None => Returns b
      end
  | None => Returns b
  end.

(** The ['error'] listener of the [i]-th read stream runs. *)
Definition streamError (i : nat) (err : string) (b : Backend) : Backend :=
  match streams b !! i with
  | Some l => log (EvCallback (l_caller l) (Error err)) b
  | None => b
  end.

(** What can happen to the backend: a call of [prepare], and, for a
    handle, a lookup or a stream that exists, a call of its [cancel],
    its completion, its failure. *)
Inductive op : Type :=
| Prepare (songId : string) (caller : nat)
| Cancel (h : nat)
| Found (i : nat) (item : option str)
| StreamError (i : nat) (err : string).

Definition step (b : Backend) (o : op) : Backend :=
  match o with
  | Prepare songId caller => after (prepare songId caller b)
  | Cancel h => cancel h b
  | Found i item => after (found i item b)
  | StreamError i err => streamError i err b
  end.

Definition run (ops : list op) (b : Backend) : Backend := foldl step b ops.

(** The handles attached for a song id. *)
Definition handles_of (songId : string) (b : Backend) : list Handle :=
  filter (λ hd, h_songId hd = songId) (handles b).

(** The calls [callback(null, null, false)] made so far: "already
    preparing". *)
Definition is_already_preparing (e : event) : bool :=
  match e with
  | EvCallback _ (Done false) => true
  | _ => false
  end.

Definition already_preparing (b : Backend) : list event :=
  filter (λ e, is_already_preparing e = true) (trace b).

(** *** Search

    [SongModel.find(q).exec] hands the callback an error, or the
    matching documents in the order the store returns them. *)

Record CatalogSong : Type := mkCatalogSong {
  s_id : string;
  s_artist : option str;
  s_title : option str;
  s_album : option str;
  s_duration : num;
}.

Record SearchResult : Type := mkSearchResult {
  r_artist : option str;
  r_title : option str;
  r_album : option str;
  r_duration : num;
  r_songId : string;
  r_score : num;
  r_backendName : string;
  r_format : string;
}.

Definition score (maxScore : num) (numItems cur : nat) : num :=
  num_div (num_mul maxScore (Int (Z.of_nat numItems - Z.of_nat cur)))
          (Int (Z.of_nat numItems)).

Definition result_of (maxScore : num) (numItems cur : nat) (song : CatalogSong)
  : SearchResult :=
  {| r_artist := s_artist song;
     r_title := s_title song;
     r_album := s_album song;
     r_duration := s_duration song;
     r_songId := s_id song;
     r_score := score maxScore numItems cur;
     r_backendName := "local";
     r_format := "opus" |}.

(** The body of [items.forEach], on [results.songs] and [cur]. Its
    test reads [self.config.searchResultCnt], which throws when [self]
    has no [config]; [None] is that [TypeError]. *)
Definition visit (o : Self) (numItems : nat) (acc : gmap string SearchResult * nat)
    (song : CatalogSong) : option (gmap string SearchResult * nat) :=
  let '(songs, cur) := acc in
  match config o with
  | Some cfg =>
      if Z.of_nat (size songs) <=? searchResultCnt cfg then
        Some (<[s_id song := result_of (maxScore cfg) numItems cur song]> songs,
              S cur)
      else Some (songs, cur)
  | None => None
  end.

(** [items.forEach]: a throw in the body ends the loop. *)
Fixpoint forEach (o : Self) (numItems : nat) (items : list CatalogSong)
    (acc : gmap string SearchResult * nat)
  : option (gmap string SearchResult * nat) :=
  match items with
  | [] => Some acc
  | song :: items' =>
      match visit o numItems acc song with
      | Some acc' => forEach o numItems items' acc'
      | None => None
      end
  end.

(** How the callback of [exec] ends: it calls [callback], with the
    store's error or with [results.songs], or it throws. *)
Inductive searched : Type :=
| Called (arg : string + gmap string SearchResult)
| Thrown (err : string).

Definition search (b : Backend) (answer : string + list CatalogSong) : searched :=
  match answer with
  | inl err => Called (inl err)
  | inr items =>
      match forEach (self b) (length items) items (∅, 0%nat) with
      | Some (songs, _) => Called (inr songs)
      | None => Thrown TypeError
      end
  end.

(** Ten matching documents, ids "m0" .. "m9". *)
Definition ten_matches : list CatalogSong :=
  (λ i, mkCatalogSong ("m" +:+ String (ascii_of_nat (48 + i)) "")
                      None (Some (chars "foo")) None (Int 1000))
  <$> seq 0 10.

End Local.

(** ** The event loop around the core

    What reaches the core from outside: a request to queue a song, a
    backend answering a [prepareSong], a timer running out, and a
    backend finishing its [init]. A callback that throws leaves the
    state where the throw found it. *)

Module Loop.
Import Core.

#[global] Instance cont_eq_dec : EqDecision cont.
Proof. solve_decision. Defined.

(** [_playerState] as the module creates it. *)
Definition boot : World := mkWorld (mkPlayerState [] None ∅) [] [] [].

(** [_playerState.backends[backendName] = {...}] *)
Definition register (backendName : string) (st : PlayerState) : PlayerState :=
  mkPlayerState (queue st) (nowPlaying st) ({[backendName]} ∪ backends st).

(** A second sample song, and a player in which [s1] is playing. *)
Definition song_s2 : Song :=
  mkSong (VStr "U") (VStr "s2") (VNum (Int 2000)) "local" ∅ ∅ 0 None.

Definition playing_world (q : list Song) : World :=
  mkWorld (mkPlayerState q (Some song_s1) {["local"]}) [] [] [].

(** No two entries of the queue and the slot carry the same id. *)
Definition unique_ids (st : PlayerState) : Prop :=
  ∀ v, (count_id v st ≤ 1)%nat.

(** Whether a callback of [prepareSong] arms the playback timer: the
    success callback of a promotion does, when it finds a song in the
    slot. *)
Definition arms (k : cont) (o : outcome) (st : PlayerState) : bool :=
  match k, o, nowPlaying st with
  | KNowPlaying true, Prepared _, Some _ => true
  | _, _, _ => false
  end.

(** The preparations asked for on a promotion and not answered yet. *)
Definition starting (w : World) : nat :=
  length (filter (λ p, p_cont p = KNowPlaying true) (preparing w)).

(** One playback is under way at most -- a preparation that will start
    it, or its timer -- and none while the slot is empty. *)
Definition one_playback (w : World) : Prop :=
  (length (timers w) + starting w ≤ 1)%nat
  ∧ (nowPlaying (state w) = None → timers w = [] ∧ starting w = 0%nat).

Section EventLoop.

Variable modules : list (string * Module_).
Variable songDelayMs : Z.

(** The two callbacks handed to [backend.init]. *)
Definition onBackendInit (backendName : string) : M unit :=
  st ← get;
  put (register backendName st);;
  _callHooks modules "onBackendInit" (ArgName backendName);;
  mret ().

Definition onBackendInitError (backendName : string) : M unit :=
  _callHooks modules "onBackendInitError" (ArgName backendName);;
  mret ().

Inductive input : Type :=
| Enqueue (song : Song)
| Answer (i : nat) (o : outcome)
| Expire (i : nat)
| BackendInit (backendName : string)
| BackendInitError (backendName : string).

Definition react (w : World) (i : input) : World :=
  match i with
  | Enqueue song => world_of (_addToQueue modules song w)
  | Answer i o => world_of (answer modules songDelayMs i o w)
  | Expire i => world_of (expire modules i w)
  | BackendInit backendName => world_of (onBackendInit backendName w)
  | BackendInitError backendName => world_of (onBackendInitError backendName w)
  end.

Definition run (inputs : list input) (w : World) : World :=
  foldl react w inputs.

End EventLoop.

End Loop.

(** ** The probe queue of the local backend

    The walker pushes every file it finds; the queue hands each to
    [ffprobe] and runs the worker's callback on what comes back. The
    list below is the probe results in the order the callbacks run. *)

Module Ingest.
Import Path Local.

Section Worker.

Variable importFormats : list str.

(** [_.includes(self.importFormats, probeData.format.format_name)] *)
Definition validStreams (probeData : ProbeData) : bool :=
  bool_decide (format_name probeData ∈ importFormats).

(** The callback of [ffprobe]: nothing came back, or the format is not
    one to import, or the song is inserted. *)
Definition worker (songs : gmap str SongDoc) (probeData : option ProbeData)
  : gmap str SongDoc :=
  match probeData with
  | None => songs
  | Some probeData =>
      if validStreams probeData then insertSong probeData songs else songs
  end.

Definition ingest (probes : list (option ProbeData)) (songs : gmap str SongDoc)
  : gmap str SongDoc :=
  foldl worker songs probes.

(** The file names the probes upsert, in order. *)
Definition upserted (probes : list (option ProbeData)) : list str :=
  omap (λ p, match p with
             | Some probeData =>
                 if validStreams probeData then Some (file probeData) else None
             | None => None
             end) probes.

End Worker.

End Ingest.

(** * The value model at work *)

Module JSFacts.

Example parseInt_number : parseInt (VNum (Int 1000)) = Int 1000.
Proof. reflexivity. Qed.

Example parseInt_digits : parseInt (VStr "  215abc") = Int 215.
Proof. reflexivity. Qed.

Example parseInt_hex : parseInt (VStr "-0x1f") = Int (-31).
Proof. reflexivity. Qed.

Example parseInt_word : parseInt (VStr "abc") = NaN.
Proof. reflexivity. Qed.

Example truthy_falsy_values :
  truthy <$> [VUndefined; VNull; VBool false; VNum (Int 0); VNum NaN; VStr ""]
  = [false; false; false; false; false; false].
Proof. reflexivity. Qed.

Example truthy_object : truthy (VObj "B") = true.
Proof. reflexivity. Qed.

Example strict_eq_types : strict_eq (VNum (Int 1)) (VStr "1") = false.
Proof. reflexivity. Qed.

(** Doubles: a sum is rounded, a tenth is the double nearest to it. *)
Example sum_is_rounded :
  num_add (Int (2 ^ 53)) (Int 1) = Int (2 ^ 53)
  ∧ num_add (Frac (2001 # 2)) (Int 500) = Frac (3001 # 2)
  ∧ round64 (1 # 10) = Frac (3602879701896397 # 36028797018963968).
Proof. vm_compute. repeat split. Qed.

Example numbers_print :
  num_to_string <$> [Int 1000; Frac (2001 # 2); round64 (1 # 10); Int (2 ^ 64);
                     Int (10 ^ 21); Frac (5 # 10000000); NaN; Inf true]
  = ["1000"; "1000.5"; "0.1"; "18446744073709552000"; "1e+21"; "5e-7"; "NaN";
     "-Infinity"].
Proof. vm_compute. reflexivity. Qed.

(** [parseInt] of a number reads its print: the whole part of a
    fraction, the first digit of an exponent form. *)
Example parseInt_of_numbers :
  (λ n, parseInt (VNum n))
  <$> [Frac (2001 # 2); Frac (-1 # 2); Int (2 ^ 53); Int (10 ^ 21);
       Frac (5 # 10000000); NaN; Inf false]
  = [Int 1000; Int 0; Int (2 ^ 53); Int 1; Int 5; NaN; NaN].
Proof. vm_compute. reflexivity. Qed.

Example parseInt_of_others :
  parseInt <$> [VStr "1000.5"; VStr "9007199254740993"; VUndefined; VObj "o"]
  = [Int 1000; Int 9007199254740992; NaN; NaN].
Proof. vm_compute. reflexivity. Qed.

End JSFacts.

(** * Properties of the player core *)

Module CoreFacts.
Import Core.

Ltac unmonad :=
  unfold mbind, M_bind, mret, M_ret, throw, get, put, emit, emits in *.

Lemma strict_eq_eq a b : strict_eq a b = true → a = b.
Proof.
  destruct a as [| |x|[x|x|x|]|x|x], b as [| |y|[y|y|y|]|y|y]; simpl; try done.
  - intros H. by apply Bool.eqb_prop in H as ->.
  - intros H. by apply Z.eqb_eq in H as ->.
  - intros H. by apply bool_decide_eq_true_1 in H as ->.
  - intros H. by apply Bool.eqb_prop in H as ->.
  - intros H. by apply String.eqb_eq in H as ->.
  - intros H. by apply String.eqb_eq in H as ->.
Qed.

Lemma strict_eq_refl a : truthy a = true → strict_eq a a = true.
Proof.
  destruct a as [| |x|[x|x|x|]|x|x]; simpl; try done.
  - by destruct x.
  - intros _. apply Z.eqb_refl.
  - intros _. by apply bool_decide_eq_true_2.
  - intros _. by destruct x.
  - intros _. apply String.eqb_refl.
  - intros _. apply String.eqb_refl.
Qed.

Lemma strict_eq_sym a b : strict_eq a b = strict_eq b a.
Proof.
  destruct a as [| |x|[x|x|x|]|x|x], b as [| |y|[y|y|y|]|y|y]; simpl; try done.
  - by destruct x, y.
  - apply Z.eqb_sym.
  - apply bool_decide_ext. split; by intros ->.
  - by destruct x, y.
  - apply String.eqb_sym.
  - apply String.eqb_sym.
Qed.

(** **** What [_.find] does with the modules *)

Lemma find_module_all_falsy hook st arg ms :
  all_falsy hook st arg ms →
  find_module hook st arg ms = (invoked hook ms, VUndefined).
Proof.
  induction ms as [|[name m] ms IH]; intros Hf; [done|]. simpl.
  assert (all_falsy hook st arg ms) as Hf'.
  { intros n' m' f' Hin. apply (Hf n' m' f'). by right. }
  destruct (m hook) as [f|] eqn:Hm.
  - rewrite (Hf name m f) by (done || left). by rewrite IH.
  - by apply IH.
Qed.

(** The modules before the first truthy answer are invoked in order,
    those after it are not, and the result is that module. *)
Lemma find_module_first_truthy hook st arg pre name m f post :
  all_falsy hook st arg pre →
  m hook = Some f →
  truthy (f st arg) = true →
  find_module hook st arg (pre ++ (name, m) :: post)
  = (invoked hook pre ++ [EvHook name hook], VObj name).
Proof.
  intros Hpre Hm Ht. induction pre as [|[n0 m0] pre IH]; simpl.
  - by rewrite Hm, Ht.
  - assert (all_falsy hook st arg pre) as Hpre'.
    { intros n' m' f' Hin. apply (Hpre n' m' f'). by right. }
    destruct (m0 hook) as [f0|] eqn:Hm0.
    + rewrite (Hpre n0 m0 f0) by (done || left). by rewrite IH.
    + by apply IH.
Qed.

(** Whatever the modules, the result is [undefined] or a module: never
    the value a hook answered. *)
Lemma find_module_result hook st arg ms :
  (find_module hook st arg ms).2 = VUndefined
  ∨ ∃ name m, (name, m) ∈ ms ∧ (find_module hook st arg ms).2 = VObj name.
Proof.
  induction ms as [|[name m] ms IH]; [by left|]. simpl.
  destruct (m hook) as [f|].
  - destruct (truthy (f st arg)).
    + right. exists name, m. split; [left|done].
    + destruct (find_module hook st arg ms) as [evs r]. simpl in *.
      destruct IH as [?|(n' & m' & ? & ?)]; [by left|].
      right. exists n', m'. split; [by right|done].
  - destruct IH as [?|(n' & m' & ? & ?)]; [by left|].
    right. exists n', m'. split; [by right|done].
Qed.

Section WithModules.

Variable modules : list (string * Module_).
Variable songDelayMs : Z.

Lemma callHooks_run hook arg w :
  _callHooks modules hook arg w =
    Ok (hook_result modules hook (state w) arg)
       (mkWorld (state w) (preparing w) (timers w)
                (trace w ++ hook_events modules hook (state w) arg)).
Proof.
  unfold _callHooks, hook_result, hook_events. unmonad.
  by destruct (find_module hook (state w) arg modules).
Qed.

Lemma dispatches_app h tr1 tr2 :
  dispatches h (tr1 ++ tr2) = (dispatches h tr1 + dispatches h tr2)%nat.
Proof. apply count_occ_app. Qed.

Lemma entries_app tr1 tr2 :
  entries (tr1 ++ tr2) = (entries tr1 + entries tr2)%nat.
Proof. apply count_occ_app. Qed.

Lemma find_module_only_hooks hook st arg ms e :
  e ∈ (find_module hook st arg ms).1 → ∃ m, e = EvHook m hook.
Proof.
  induction ms as [|[name m] ms IH]; simpl.
  - by intros ?%elem_of_nil.
  - destruct (m hook) as [f|]; [|done].
    destruct (truthy (f st arg)).
    + intros ->%list_elem_of_singleton. eauto.
    + destruct (find_module hook st arg ms) as [evs r]; simpl in *.
      intros [->|?]%elem_of_cons; eauto.
Qed.

Lemma count_occ_absent (e : event) (l : list event) :
  e ∉ l → count_occ event_eq_dec l e = 0%nat.
Proof. intros H. apply count_occ_not_In. by rewrite <- list_elem_of_In. Qed.

Lemma dispatches_hook_events h h' st arg :
  dispatches h (hook_events modules h' st arg)
  = if decide (h' = h) then 1%nat else 0%nat.
Proof.
  unfold dispatches, hook_events.
  assert (count_occ event_eq_dec (find_module h' st arg modules).1 (EvDispatch h)
          = 0%nat) as Hrest.
  { apply count_occ_absent. by intros [m ?]%find_module_only_hooks. }
  case_decide as Hh.
  - subst h'. by rewrite count_occ_cons_eq, Hrest.
  - rewrite count_occ_cons_neq by congruence. done.
Qed.

Lemma entries_hook_events h st arg :
  entries (hook_events modules h st arg) = 0%nat.
Proof.
  unfold entries, hook_events.
  rewrite count_occ_cons_neq by done.
  apply count_occ_absent. by intros [m ?]%find_module_only_hooks.
Qed.

Lemma entries_enter : entries [EvQueueModify] = 1%nat.
Proof. reflexivity. Qed.

Lemma entries_request b v : entries [EvPrepareSong b v] = 0%nat.
Proof. reflexivity. Qed.

Lemma entries_timeout n : entries [EvSetTimeout n] = 0%nat.
Proof. reflexivity. Qed.

Lemma dispatches_enter h : dispatches h [EvQueueModify] = 0%nat.
Proof. reflexivity. Qed.

Lemma dispatches_request h b v : dispatches h [EvPrepareSong b v] = 0%nat.
Proof. reflexivity. Qed.

Lemma dispatches_timeout h n : dispatches h [EvSetTimeout n] = 0%nat.
Proof. reflexivity. Qed.

Ltac count_trace :=
  rewrite ?entries_app, ?dispatches_app, ?entries_hook_events,
    ?dispatches_hook_events, ?entries_enter, ?entries_request,
    ?entries_timeout, ?dispatches_enter, ?dispatches_request,
    ?dispatches_timeout;
  repeat case_decide; try congruence; try lia.

(** **** [_onQueueModify], case by case *)

Lemma onQueueModify_empty w :
  queue (state w) = [] →
  _onQueueModify modules w
  = Ok () (mkWorld (state w) (preparing w) (timers w)
             ((trace w ++ [EvQueueModify])
              ++ hook_events modules "onEndOfQueue" (state w) ArgNone)).
Proof.
  intros Hq. unfold _onQueueModify. unmonad. simpl. rewrite Hq.
  by rewrite callHooks_run.
Qed.

Lemma onQueueModify_promote w head rest :
  queue (state w) = head :: rest →
  nowPlaying (state w) = None →
  _onQueueModify modules w
  = if decide (backend head ∈ backends (state w)) then
      Ok () (mkWorld (promote (state w))
               (preparing w ++ [mkPending (backend head) (id head) (KNowPlaying true)])
               (timers w)
               ((trace w ++ [EvQueueModify])
                ++ [EvPrepareSong (backend head) (id head)]))
    else
      Throw TypeError (mkWorld (promote (state w)) (preparing w) (timers w)
                         (trace w ++ [EvQueueModify])).
Proof.
  intros Hq Hn. unfold _onQueueModify, _removeFromQueue, prepareSong, promote.
  unmonad. simpl. rewrite Hq, Hn. simpl.
  by case_decide.
Qed.

Lemma onQueueModify_occupied w head rest np :
  queue (state w) = head :: rest →
  nowPlaying (state w) = Some np →
  _onQueueModify modules w
  = if decide (backend np ∈ backends (state w)) then
      Ok () (mkWorld (state w)
               (preparing w ++ [mkPending (backend np) (id np) (KNowPlaying false)])
               (timers w)
               ((trace w ++ [EvQueueModify])
                ++ [EvPrepareSong (backend np) (id np)]))
    else
      Throw TypeError (mkWorld (state w) (preparing w) (timers w)
                         (trace w ++ [EvQueueModify])).
Proof.
  intros Hq Hn. unfold _onQueueModify, prepareSong.
  unmonad. simpl. rewrite Hq, Hn. simpl. rewrite Hn.
  cbn [state]. by case_decide.
Qed.

(** Whatever the case, the handler leaves the promoted state, arms no
    timer, and is entered once; the only hook it can dispatch is
    [onEndOfQueue]. *)
Lemma onQueueModify_world w :
  let w' := world_of (_onQueueModify modules w) in
  state w' = promote (state w)
  ∧ timers w' = timers w
  ∧ entries (trace w') = S (entries (trace w))
  ∧ ∀ h, h ≠ "onEndOfQueue" → dispatches h (trace w') = dispatches h (trace w).
Proof.
  destruct (queue (state w)) as [|head rest] eqn:Hq.
  - rewrite onQueueModify_empty by done. cbn [world_of state timers trace].
    split_and!; [by unfold promote; rewrite Hq | done | |].
    + count_trace.
    + intros h Hh. count_trace.
  - destruct (nowPlaying (state w)) as [np|] eqn:Hn.
    + rewrite (onQueueModify_occupied _ _ _ _ Hq Hn).
      assert (promote (state w) = state w) as ->.
      { unfold promote. by rewrite Hq, Hn. }
      case_decide; cbn [world_of state timers trace]; split_and!; try done;
        try (intros h _); count_trace.
    + rewrite (onQueueModify_promote _ _ _ Hq Hn).
      case_decide; cbn [world_of state timers trace]; split_and!; try done;
        try (intros h _); count_trace.
Qed.

(** **** The success callback of a fresh promotion *)

Lemma onPrepared_fresh w np now :
  nowPlaying (state w) = Some np →
  let st' := set_nowPlaying (Some (set_playbackStart (Some now) np)) (state w) in
  let t := num_add (parseInt (duration np)) (Int songDelayMs) in
  let tr := ((trace w ++ hook_events modules "onSongPrepared" (state w) ArgNone)
             ++ hook_events modules "onSongChange" st' ArgNone)
            ++ [EvSetTimeout t] in
  onPrepared modules songDelayMs true now w
  = match queue (state w) with
    | next :: _ =>
        if decide (backend next ∈ backends (state w)) then
          Ok () (mkWorld st'
                   (preparing w ++ [mkPending (backend next) (id next) KNext])
                   (timers w ++ [t])
                   (tr ++ [EvPrepareSong (backend next) (id next)]))
        else Throw TypeError (mkWorld st' (preparing w) (timers w ++ [t]) tr)
    | [] =>
        Ok () (mkWorld st' (preparing w) (timers w ++ [t])
                 (tr ++ hook_events modules "onNothingToPrepare" st' ArgNone))
    end.
Proof.
  intros Hn. unfold onPrepared, prepareSong, setTimeout. unmonad.
  rewrite callHooks_run. cbn [state]. rewrite Hn.
  rewrite callHooks_run. cbn [state queue set_nowPlaying preparing timers trace].
  destruct (queue (state w)) as [|next q']; [by rewrite callHooks_run|].
  cbn [state backends set_nowPlaying]. by case_decide.
Qed.

Lemma onTimeout_run w np :
  nowPlaying (state w) = Some np →
  onTimeout modules w
  = _onQueueModify modules
      (mkWorld (set_nowPlaying None (state w)) (preparing w) (timers w)
         (trace w ++ hook_events modules "onSongEnd" (state w) ArgNone)).
Proof.
  intros Hn. unfold onTimeout. unmonad. cbn [state]. rewrite Hn.
  by rewrite callHooks_run.
Qed.

(** C4, as the code has it: from an empty slot and a queue [s :: q]
    whose head names a registered backend, [_onQueueModify] moves [s]
    into the slot and asks its backend to prepare it; when the backend
    answers with success the song in the slot is [s] with its
    [playbackStart] set to the time, [onSongPrepared] and
    [onSongChange] are each dispatched once and exactly one timer is
    armed, of [parseInt(duration) + songDelayMs]; when that timer
    expires [onSongEnd] is dispatched once, the slot is emptied and
    [_onQueueModify] is entered once more, from that emptied state. *)
Theorem onQueueModify_plays_head (w : World) (s : Song) (q : list Song) (now : Z) :
  nowPlaying (state w) = None →
  queue (state w) = s :: q →
  backend s ∈ backends (state w) →
  let w1 := world_of (_onQueueModify modules w) in
  let w2 := world_of (answer modules songDelayMs (length (preparing w))
                        (Prepared now) w1) in
  let r3 := expire modules (length (timers w)) w2 in
  (_onQueueModify modules w = Ok () w1
   ∧ nowPlaying (state w1) = Some s
   ∧ queue (state w1) = splice_first (id s) q
   ∧ preparing w1
     = preparing w ++ [mkPending (backend s) (id s) (KNowPlaying true)]
   ∧ timers w1 = timers w)
  ∧ (nowPlaying (state w2)
     = Some (mkSong (title s) (id s) (duration s) (backend s)
                    (upVotes s) (downVotes s) (oldness s) (Some now))
     ∧ queue (state w2) = queue (state w1)
     ∧ dispatches "onSongPrepared" (trace w2)
       = S (dispatches "onSongPrepared" (trace w1))
     ∧ dispatches "onSongChange" (trace w2)
       = S (dispatches "onSongChange" (trace w1))
     ∧ timers w2
       = timers w ++ [num_add (parseInt (duration s)) (Int songDelayMs)])
  ∧ ((∃ w3, r3 = _onQueueModify modules w3
            ∧ nowPlaying (state w3) = None
            ∧ queue (state w3) = queue (state w2)
            ∧ timers w3 = timers w
            ∧ entries (trace w3) = entries (trace w2)
            ∧ dispatches "onSongEnd" (trace w3)
              = S (dispatches "onSongEnd" (trace w2)))
     ∧ timers (world_of r3) = timers w
     ∧ entries (trace (world_of r3)) = S (entries (trace w2))
     ∧ dispatches "onSongEnd" (trace (world_of r3))
       = S (dispatches "onSongEnd" (trace w2))
     ∧ (queue (state w2) = [] → nowPlaying (state (world_of r3)) = None)).
Proof.
  intros Hn Hq Hb w1 w2 r3.
  assert (_onQueueModify modules w
          = Ok () (mkWorld (promote (state w))
                     (preparing w
                      ++ [mkPending (backend s) (id s) (KNowPlaying true)])
                     (timers w)
                     ((trace w ++ [EvQueueModify])
                      ++ [EvPrepareSong (backend s) (id s)]))) as Hrun.
  { rewrite (onQueueModify_promote _ _ _ Hq Hn). by rewrite decide_True. }
  assert (promote (state w)
          = mkPlayerState (splice_first (id s) q) (Some s) (backends (state w)))
    as Hpromote.
  { unfold promote. by rewrite Hq, Hn. }
  assert (state w1 = promote (state w) ∧ timers w1 = timers w
          ∧ preparing w1
            = preparing w ++ [mkPending (backend s) (id s) (KNowPlaying true)])
    as (Hst1 & Htm1 & Hpr1).
  { subst w1. by rewrite Hrun. }
  split.
  { subst w1. rewrite Hrun. cbn [world_of state preparing timers].
    by rewrite Hpromote. }
  set (st2 := set_nowPlaying (Some (set_playbackStart (Some now) s)) (state w1)).
  assert (state w2 = st2
          ∧ timers w2
            = timers w ++ [num_add (parseInt (duration s)) (Int songDelayMs)]
          ∧ dispatches "onSongPrepared" (trace w2)
            = S (dispatches "onSongPrepared" (trace w1))
          ∧ dispatches "onSongChange" (trace w2)
            = S (dispatches "onSongChange" (trace w1)))
    as (Hst2 & Htm2 & Hp2 & Hc2).
  { subst w2. unfold answer. rewrite Hpr1.
    rewrite list_lookup_middle by done. cbn [p_cont run_cont].
    erewrite onPrepared_fresh; last first.
    { cbn [state]. rewrite Hst1, Hpromote. done. }
    cbn [state timers trace preparing]. rewrite Htm1.
    fold st2.
    destruct (queue (state w1)) as [|next q']; [|case_decide];
      cbn [world_of state timers trace]; split_and!; try done; count_trace. }
  split.
  { rewrite Hst2. subst st2. cbn [nowPlaying queue set_nowPlaying]. done. }
  assert (r3 = _onQueueModify modules
                 (mkWorld (set_nowPlaying None (state w2)) (preparing w2)
                    (timers w)
                    (trace w2
                     ++ hook_events modules "onSongEnd" (state w2) ArgNone)))
    as Hr3.
  { subst r3. unfold expire. rewrite Htm2.
    rewrite list_lookup_middle by done.
    rewrite delete_middle, app_nil_r.
    erewrite onTimeout_run; [done|]. cbn [state]. by rewrite Hst2. }
  split.
  { eexists. split; [exact Hr3|]. cbn [state timers trace set_nowPlaying
      nowPlaying queue]. split_and!; try done; count_trace. }
  rewrite Hr3.
  match goal with |- context [_onQueueModify modules ?w0] =>
    destruct (onQueueModify_world w0) as (Hs & Ht & He & Hdsp) end.
  cbn [state timers trace] in Hs, Ht, He, Hdsp.
  split_and!.
  - done.
  - rewrite He. count_trace.
  - rewrite Hdsp by done. count_trace.
  - intros Hempty. rewrite Hs. unfold promote.
    cbn [queue set_nowPlaying]. by rewrite Hempty.
Qed.

(** **** Counting the entries that carry an id *)

Abbreviation has_id v := (λ s : Song, strict_eq (id s) v = true).

Lemma find_id_None v q :
  find_id v q = None ↔ length (filter (has_id v) q) = 0%nat.
Proof.
  induction q as [|s q IH]; [done|]. simpl.
  destruct (strict_eq (id s) v) eqn:E.
  - rewrite filter_cons_True by done. simpl. split; [done | lia].
  - rewrite filter_cons_False by (by rewrite E). done.
Qed.

Lemma searchQueue_run v w :
  ∃ r, _searchQueue v w = Ok r w
       ∧ (r = None ↔ count_id v (state w) = 0%nat).
Proof.
  unfold _searchQueue, count_id. unmonad.
  destruct (find_id v (queue (state w))) as [s|] eqn:Hf.
  - eexists. split; [done|]. split; [done|].
    intros Hc.
    assert (find_id v (queue (state w)) = None); [|congruence].
    apply find_id_None. lia.
  - apply find_id_None in Hf. rewrite Hf.
    destruct (nowPlaying (state w)) as [np|]; [|by eexists].
    destruct (strict_eq (id np) v); eexists; (split; [done|]); simpl; done.
Qed.

(** Splicing out an entry never adds one with the id looked for, and
    leaves them all when the spliced id is another one. *)
Lemma filter_splice_first_le v x q :
  (length (filter (has_id v) (splice_first x q))
   ≤ length (filter (has_id v) q))%nat.
Proof.
  induction q as [|s q IH]; [done|]. simpl.
  destruct (strict_eq (id s) x).
  - destruct (decide (has_id v s)).
    + rewrite filter_cons_True by done. simpl. lia.
    + by rewrite filter_cons_False.
  - destruct (decide (has_id v s)).
    + rewrite !filter_cons_True by done. simpl. lia.
    + by rewrite !filter_cons_False.
Qed.

Lemma filter_splice_first_other v x q :
  strict_eq x v = false →
  filter (has_id v) (splice_first x q) = filter (has_id v) q.
Proof.
  intros Hx. induction q as [|s q IH]; [done|]. simpl.
  destruct (strict_eq (id s) x) eqn:E.
  - apply strict_eq_eq in E. rewrite filter_cons_False; [done|].
    rewrite E, Hx. done.
  - destruct (decide (has_id v s)).
    + rewrite !filter_cons_True by done. by rewrite IH.
    + by rewrite !filter_cons_False.
Qed.

Lemma count_id_promote v st :
  (count_id v st ≤ 1)%nat → count_id v (promote st) = count_id v st.
Proof.
  unfold promote, count_id.
  destruct (queue st) as [|head rest] eqn:Hq; [by rewrite Hq|].
  destruct (nowPlaying st) as [np|] eqn:Hn; [by rewrite Hq, Hn|].
  cbn [queue nowPlaying]. destruct (strict_eq (id head) v) eqn:E.
  - rewrite filter_cons_True by done. simpl. intros Hle.
    pose proof (filter_splice_first_le v (id head) rest). lia.
  - rewrite filter_cons_False by (by rewrite E).
    rewrite filter_splice_first_other by done. lia.
Qed.

(** **** The error callback of the now-playing preparation *)

(** The failed song is looked for in the queue only: the slot keeps
    it, no timer is armed and the queue handler is not entered. *)
Lemma onPrepareError_keeps_slot w np :
  nowPlaying (state w) = Some np →
  ∃ w', onPrepareError modules w = Ok () w'
        ∧ nowPlaying (state w') = Some np
        ∧ queue (state w') = splice_first (id np) (queue (state w))
        ∧ timers w' = timers w
        ∧ preparing w' = preparing w
        ∧ entries (trace w') = entries (trace w)
        ∧ dispatches "onSongPrepareError" (trace w')
          = S (dispatches "onSongPrepareError" (trace w)).
Proof.
  intros Hn. unfold onPrepareError, _removeFromQueue. unmonad.
  cbn [state]. rewrite Hn. rewrite callHooks_run. cbn [state]. rewrite Hn.
  eexists. split; [done|]. cbn [state nowPlaying queue set_queue timers
    preparing trace]. split_and!; try done; count_trace.
Qed.

(** Whatever the song, a call of [_addToQueue] changes nothing: it
    answers the validation string, or it throws at the read of [req]. *)
Lemma addToQueue_run (song : Song) (w : World) :
  _addToQueue modules song w
  = if truthy (title song) && truthy (id song) && truthy (duration song)
    then Throw ReferenceError w
    else Ok (VStr "required song fields not provided") w.
Proof.
  unfold _addToQueue, req_body_userID.
  by destruct (truthy (title song)), (truthy (id song)), (truthy (duration song)).
Qed.

(** C2 (the code, on every song that has its three fields): the check
    of the user id is never reached. [_addToQueue] throws a
    [ReferenceError] at the read of [req]; the world is the one before
    the call, and 'invalid userID' is not what the caller gets. *)
Theorem addToQueue_throws_at_req (w : World) (song : Song) :
  truthy (title song) = true →
  truthy (id song) = true →
  truthy (duration song) = true →
  _addToQueue modules song w = Throw ReferenceError w
  ∧ _addToQueue modules song w ≠ Ok (VStr "invalid userID") w.
Proof.
  intros Ht Hi Hd. rewrite addToQueue_run, Ht, Hi, Hd. by split.
Qed.

(** C10: a song whose title is the empty string, whose id is the
    empty string or whose duration is 0 is answered 'required song
    fields not provided', before anything else is read, and the world
    is the one before the call. *)
Theorem addToQueue_falsy_field (w : World) (song : Song) :
  title song = VStr "" ∨ id song = VStr "" ∨ duration song = VNum (Int 0) →
  _addToQueue modules song w
  = Ok (VStr "required song fields not provided") w.
Proof.
  intros H. unfold _addToQueue.
  assert (negb (truthy (title song)) || negb (truthy (id song))
          || negb (truthy (duration song)) = true) as ->; [|done].
  destruct H as [-> | [-> | ->]]; simpl.
  - done.
  - by rewrite orb_true_r.
  - by rewrite orb_true_r.
Qed.

(** C9 (the code, on every song that has its three fields and is not
    in the player): queued twice in a row, the song is in the player
    neither after the first call nor after the second. Both calls
    throw a [ReferenceError] at the read of [req], before
    [_searchQueue] and [_initializeSong] are reached: the queue and the
    slot hold no entry with the id, and 'duplicate songID' is not what
    the second caller gets. *)
Theorem addToQueue_twice_no_entry (w : World) (s : Song) :
  truthy (title s) = true →
  truthy (id s) = true →
  truthy (duration s) = true →
  count_id (id s) (state w) = 0%nat →
  let r1 := _addToQueue modules s w in
  let r2 := _addToQueue modules s (world_of r1) in
  r1 = Throw ReferenceError w
  ∧ r2 = Throw ReferenceError w
  ∧ r2 ≠ Ok (VStr "duplicate songID") (world_of r1)
  ∧ count_id (id s) (state (world_of r2)) = 0%nat.
Proof.
  intros Ht Hi Hd Hc r1 r2. subst r1 r2.
  rewrite (addToQueue_run s w), Ht, Hi, Hd. cbn [andb world_of].
  rewrite (addToQueue_run s w), Ht, Hi, Hd. cbn [andb world_of].
  by split_and!.
Qed.

End WithModules.

Lemma addToQueue_throws_at_req_witness :
  _addToQueue [] song_s1 (idle_world [])
  = Throw ReferenceError (idle_world []).
Proof.
  by destruct (addToQueue_throws_at_req [] (idle_world []) song_s1
                 eq_refl eq_refl eq_refl) as [H _].
Defined.

Lemma addToQueue_falsy_field_witness :
  _addToQueue [] song_untitled (idle_world [song_s1])
  = Ok (VStr "required song fields not provided") (idle_world [song_s1]).
Proof. apply addToQueue_falsy_field. left. reflexivity. Defined.

Lemma onQueueModify_plays_head_witness :
  let w1 := world_of (_onQueueModify [] (idle_world [song_s1])) in
  let w2 := world_of (answer [] 500 0 (Prepared 42) w1) in
  playbackStart <$> nowPlaying (state w2) = Some (Some 42)
  ∧ timers w2 = [Int 1500]
  ∧ nowPlaying (state (world_of (expire [] 0 w2))) = None.
Proof.
  assert ("local" ∈ backends (state (idle_world [song_s1]))) as Hb.
  { cbn [idle_world state backends]. by apply elem_of_singleton_2. }
  destruct (onQueueModify_plays_head [] 500 (idle_world [song_s1]) song_s1 []
              42 eq_refl eq_refl Hb)
    as (_ & (Hstamp & _ & _ & _ & Htimers) & (_ & _ & _ & _ & Hslot)).
  split_and!.
  - exact (f_equal (fmap playbackStart) Hstamp).
  - refine (eq_trans Htimers _). vm_compute. reflexivity.
  - apply Hslot. reflexivity.
Defined.

(** C4 (where the claim fails): the head of the queue lasts 1000.5
    milliseconds and [songDelayMs] is 500. Duration and delay come to
    1500.5; the timer armed is of 1500. *)
Lemma timer_drops_the_fraction :
  let s := mkSong (VStr "T") (VStr "s1") (VNum (Frac (2001 # 2))) "local"
                  ∅ ∅ 0 None in
  let w1 := world_of (_onQueueModify [] (idle_world [s])) in
  let w2 := world_of (answer [] 500 0 (Prepared 42) w1) in
  num_add (Frac (2001 # 2)) (Int 500) = Frac (3001 # 2)
  ∧ timers w2 = [Int 1500]
  ∧ timers w2 ≠ [num_add (Frac (2001 # 2)) (Int 500)].
Proof. vm_compute. split_and!; [reflexivity..|discriminate]. Qed.

Lemma addToQueue_twice_no_entry_witness :
  let r1 := _addToQueue [] song_s1 (idle_world []) in
  let r2 := _addToQueue [] song_s1 (world_of r1) in
  r2 = Throw ReferenceError (idle_world [])
  ∧ count_id (VStr "s1") (state (world_of r2)) = 0%nat.
Proof.
  by destruct (addToQueue_twice_no_entry [] (idle_world []) song_s1
                 eq_refl eq_refl eq_refl eq_refl) as (_ & H2 & _ & H0).
Defined.

(** C3 (the code at the specification's own example): with modules
    [A → falsy, B → "err", C → truthy] the hook runs on A and on B
    only, and what [_callHooks] hands back is the module B that
    [_.find] stopped at, which is not the string "err" B's hook
    answered. *)
Theorem callHooks_ABC_returns_module :
  _callHooks (modules_ABC "preSongQueued") "preSongQueued" ArgNone (idle_world [])
  = Ok (VObj "B")
       (mkWorld (state (idle_world [])) [] []
                [EvDispatch "preSongQueued";
                 EvHook "A" "preSongQueued";
                 EvHook "B" "preSongQueued"])
  ∧ VObj "B" ≠ VStr "err".
Proof. split; [reflexivity | discriminate]. Qed.

(** C1 (the code at a failing input): [s1] is alone in the queue, is
    promoted to the slot, and its preparation fails. The error
    callback dispatches [onSongPrepareError] once, finds nothing to
    splice out of the queue, leaves [s1] in the now-playing slot and
    does not enter [_onQueueModify] a second time. *)
Theorem prepare_error_leaves_slot_occupied :
  let w1 := world_of (_onQueueModify [] (idle_world [song_s1])) in
  let w2 := world_of (answer [] 0 0 Failed w1) in
  nowPlaying (state w1) = Some song_s1
  ∧ preparing w1 = [mkPending "local" (VStr "s1") (KNowPlaying true)]
  ∧ nowPlaying (state w2) = Some song_s1
  ∧ queue (state w2) = []
  ∧ dispatches "onSongPrepareError" (trace w2) = 1%nat
  ∧ entries (trace w2) = 1%nat
  ∧ preparing w2 = [] ∧ timers w2 = [].
Proof. vm_compute. repeat split. Qed.

End CoreFacts.


(** * Properties of the path and string functions *)

Module PathFacts.
Import Path.

(** **** The functions on the cases Node's own test suite lists *)

Example basename_cases :
  (λ '(p, ext), basename_ext (chars p) (chars ext))
  <$> [("aaa/bbb", "/bbb"); ("aaa/bbb", "a/bbb"); ("aaa/bbb", "bbb");
       ("aaa/bbb//", "bbb"); ("aaa/bbb", "bb"); ("aaa/bbb", "b");
       ("/aaa/bbb", "bb"); ("a", "a"); ("file.flac", ".flac");
       ("/aaa/", ""); ("//a", "")]
  = chars <$> ["bbb"; "bbb"; "bbb"; "bbb"; "b"; "bb"; "b"; ""; "file";
               "aaa"; "a"].
Proof. reflexivity. Qed.

Example dirname_cases :
  (λ p, dirname (chars p))
  <$> ["/a/b/"; "/a/b"; "/a"; ""; "/"; "////"; "//a"; "foo"; "a//b"]
  = chars <$> ["/a"; "/a"; "/"; "."; "/"; "/"; "//"; "."; "a/"].
Proof. reflexivity. Qed.

Example split_cases :
  split "-" (chars "Artist - Song - Live")
  = chars <$> ["Artist "; " Song "; " Live"]
  ∧ split "-" (chars "") = [[]]
  ∧ split "-" (chars "nodash") = [chars "nodash"].
Proof. repeat split. Qed.

Example trim_cases :
  trim (chars "  Song Title ") = chars "Song Title" ∧ trim (chars "   ") = [].
Proof. split; reflexivity. Qed.

Lemma is_slash_false c : c ≠ "/"%char → is_slash c = false.
Proof. intros H. unfold is_slash. by destruct (Ascii.eqb_spec c "/"). Qed.

Lemma skip_slashes_component (a rest : str) :
  a ≠ [] → "/"%char ∉ a → skip_slashes (a ++ rest) = a ++ rest.
Proof.
  destruct a as [|c a]; [done|]. intros _ Hc. simpl.
  rewrite is_slash_false; [done|]. intros ->. apply Hc, list_elem_of_here.
Qed.

Lemma until_slash_component (a rest : str) :
  "/"%char ∉ a → rest = [] ∨ (∃ r, rest = "/"%char :: r) →
  until_slash (a ++ rest) = a.
Proof.
  intros Ha Hrest. induction a as [|c a IH]; simpl.
  - by destruct Hrest as [->|[r ->]].
  - apply not_elem_of_cons in Ha as [Hc Ha].
    rewrite is_slash_false by done. by rewrite IH.
Qed.

Lemma from_slash_component (a rest : str) :
  "/"%char ∉ a → from_slash (a ++ "/"%char :: rest) = "/"%char :: rest.
Proof.
  intros Ha. induction a as [|c a IH]; simpl; [done|].
  apply not_elem_of_cons in Ha as [Hc Ha].
  rewrite is_slash_false by done. by apply IH.
Qed.

Lemma reverse_component (a : str) :
  a ≠ [] → "/"%char ∉ a → reverse a ≠ [] ∧ "/"%char ∉ reverse a.
Proof.
  intros Hne Ha. split.
  - intros Hr. apply Hne. apply (f_equal reverse) in Hr.
    by rewrite reverse_involutive in Hr.
  - by rewrite elem_of_reverse.
Qed.

(** The base name of a slash-free name is the name. *)
Lemma basename_plain (name : str) :
  name ≠ [] → "/"%char ∉ name → basename name = name.
Proof.
  intros Hne Hns. destruct (reverse_component name Hne Hns) as [Hr1 Hr2].
  unfold basename. rewrite <- (app_nil_r (reverse name)).
  rewrite skip_slashes_component by done.
  rewrite until_slash_component by auto. apply reverse_involutive.
Qed.

(** The base name of [d/name] is [name]. *)
Lemma basename_file (d name : str) :
  name ≠ [] → "/"%char ∉ name → basename (d ++ "/"%char :: name) = name.
Proof.
  intros Hne Hns. destruct (reverse_component name Hne Hns) as [Hr1 Hr2].
  unfold basename. rewrite reverse_app, reverse_cons, <- app_assoc.
  rewrite skip_slashes_component by done.
  rewrite until_slash_component by (simpl; eauto). apply reverse_involutive.
Qed.

(** An extension is cut off a longer base name. *)
Lemma basename_ext_strip (d stem ext : str) :
  stem ≠ [] → "/"%char ∉ stem → "/"%char ∉ ext →
  basename_ext (d ++ "/"%char :: stem ++ ext) ext = stem.
Proof.
  intros Hne Hstem Hext.
  assert (basename (d ++ "/"%char :: stem ++ ext) = stem ++ ext) as Hbase.
  { apply basename_file.
    - by destruct stem.
    - rewrite elem_of_app. tauto. }
  unfold basename_ext. rewrite Hbase.
  destruct ext as [|e ext].
  { rewrite bool_decide_eq_true_2 by done. simpl. apply app_nil_r. }
  assert (length stem ≠ 0%nat) as Hlen by (by destruct stem).
  rewrite bool_decide_eq_false_2 by done.
  replace (length (d ++ "/"%char :: stem ++ e :: ext) <? length (e :: ext))%nat
    with false
    by (symmetry; apply Nat.ltb_ge; rewrite length_app; simpl;
        rewrite length_app; simpl; lia).
  cbn [orb].
  rewrite bool_decide_eq_false_2; last first.
  { intros Heq. apply (f_equal length) in Heq. revert Heq.
    rewrite length_app. simpl. rewrite length_app. simpl. lia. }
  assert (is_suffix (e :: ext) (stem ++ e :: ext) = true) as ->.
  { unfold is_suffix. apply andb_true_intro. split.
    - apply Nat.leb_le. rewrite length_app. lia.
    - apply bool_decide_eq_true_2.
      replace (length (stem ++ e :: ext) - length (e :: ext))%nat
        with (length stem) by (rewrite length_app; lia).
      by rewrite drop_app_length. }
  rewrite bool_decide_eq_false_2; last first.
  { intros Heq. apply (f_equal length) in Heq. revert Heq.
    rewrite length_app. lia. }
  replace (length (stem ++ e :: ext) - length (e :: ext))%nat
    with (length stem) by (rewrite length_app; lia).
  by rewrite take_app_length.
Qed.

(** The directory of [d/name] is [d], unless [d] is empty or the root. *)
Lemma dirname_file (d name : str) :
  d ≠ [] → d ≠ ["/"%char] → name ≠ [] → "/"%char ∉ name →
  dirname (d ++ "/"%char :: name) = d.
Proof.
  intros Hd Hroot Hne Hns.
  destruct (reverse_component name Hne Hns) as [Hr1 Hr2].
  destruct d as [|c0 d']; [done|]. unfold dirname. cbn [app].
  rewrite reverse_app, reverse_cons, <- app_assoc.
  rewrite skip_slashes_component by done. cbn [app].
  rewrite from_slash_component by done.
  destruct (is_slash c0 && bool_decide (reverse d' = [])) eqn:E.
  - exfalso. apply andb_prop in E as [E1 E2]. apply Hroot.
    apply bool_decide_eq_true_1 in E2.
    apply (f_equal reverse) in E2. rewrite reverse_involutive in E2.
    unfold is_slash in E1. apply Ascii.eqb_eq in E1. by subst.
  - by rewrite reverse_involutive.
Qed.

(** **** [split] and [trim] *)

Lemma split_no_separator (sep : ascii) (a : str) :
  sep ∉ a → split sep a = [a].
Proof.
  induction a as [|c a IH]; [done|]. intros [Hc Ha]%not_elem_of_cons.
  simpl. destruct (Ascii.eqb_spec c sep); [congruence|]. by rewrite IH.
Qed.

Lemma split_at_separator (sep : ascii) (a rest : str) :
  sep ∉ a → split sep (a ++ sep :: rest) = a :: split sep rest.
Proof.
  induction a as [|c a IH]; intros Ha.
  - simpl. by rewrite Ascii.eqb_refl.
  - apply not_elem_of_cons in Ha as [Hc Ha]. simpl.
    destruct (Ascii.eqb_spec c sep); [congruence|]. by rewrite IH.
Qed.

Lemma skip_space_length (l : str) : (length (skip_space l) ≤ length l)%nat.
Proof.
  induction l as [|c l IH]; simpl; [lia|]. destruct (is_space c); simpl; lia.
Qed.

Lemma skip_space_fixed (l : str) :
  length (skip_space l) = length l → skip_space l = l.
Proof.
  destruct l as [|c l]; simpl; [done|]. destruct (is_space c); [|done].
  pose proof (skip_space_length l). lia.
Qed.

(** A string that [trim] leaves alone has no space at either end. *)
Lemma trim_fixed (a : str) :
  trim a = a → skip_space a = a ∧ skip_space (reverse a) = reverse a.
Proof.
  unfold trim. intros Ht.
  assert (skip_space a = a) as Ha.
  { apply skip_space_fixed. apply (f_equal length) in Ht.
    rewrite length_reverse in Ht.
    pose proof (skip_space_length (reverse (skip_space a))) as H1.
    rewrite length_reverse in H1.
    pose proof (skip_space_length a). lia. }
  split; [done|]. rewrite Ha in Ht.
  apply (f_equal reverse) in Ht. by rewrite reverse_involutive in Ht.
Qed.

Lemma trim_space_after (a : str) : trim a = a → trim (a ++ [" "%char]) = a.
Proof.
  intros [Ha Hr]%trim_fixed. unfold trim.
  destruct a as [|c a]; [done|].
  assert (is_space c = false) as Hc.
  { simpl in Ha. destruct (is_space c); [|done].
    pose proof (skip_space_length a) as Hl. rewrite Ha in Hl. simpl in Hl. lia. }
  assert (skip_space ((c :: a) ++ [" "%char]) = (c :: a) ++ [" "%char]) as ->.
  { simpl. by rewrite Hc. }
  rewrite reverse_app. change (reverse [" "%char]) with [" "%char].
  cbn [app skip_space]. change (is_space " ") with true. cbv iota.
  by rewrite Hr, reverse_involutive.
Qed.

Lemma trim_space_before (a : str) : trim a = a → trim (" "%char :: a) = a.
Proof.
  intros [Ha Hr]%trim_fixed. unfold trim. cbn [skip_space].
  change (is_space " ") with true. cbv iota.
  by rewrite Ha, Hr, reverse_involutive.
Qed.

End PathFacts.

(** * Properties of the local backend *)

Module LocalFacts.
Import Path Local.

(** ** Metadata guessed from the file path *)

Lemma guess_dash_pieces (d a b rest ext : str) :
  d ≠ [] → d ≠ ["/"%char] →
  "/"%char ∉ a → "-"%char ∉ a →
  "/"%char ∉ b → "-"%char ∉ b →
  "/"%char ∉ rest → rest = [] ∨ (∃ r, rest = "-"%char :: r) →
  "/"%char ∉ ext →
  let filePath := d ++ "/"%char :: (a ++ "-"%char :: b ++ rest) ++ ext in
  artist (guessMetadataFromPath filePath ext) = Some (trim a)
  ∧ title (guessMetadataFromPath filePath ext) = Some (trim b)
  ∧ album (guessMetadataFromPath filePath ext) = basename d.
Proof.
  intros Hd Hroot Ha Hda Hb Hdb Hr Hrest Hext filePath.
  assert ("/"%char ∉ a ++ "-"%char :: b ++ rest) as Hstem.
  { rewrite elem_of_app, elem_of_cons, elem_of_app.
    intros [?|[?|[?|?]]]; try done. }
  unfold guessMetadataFromPath. cbn [artist title album]. subst filePath.
  rewrite PathFacts.basename_ext_strip; [|by destruct a|done|done].
  rewrite PathFacts.dirname_file; [|done|done|by destruct a|].
  2:{ rewrite elem_of_app. tauto. }
  rewrite PathFacts.split_at_separator by done.
  split_and!; [done| |done].
  destruct Hrest as [->|[r ->]].
  - rewrite app_nil_r, PathFacts.split_no_separator by done. done.
  - rewrite PathFacts.split_at_separator by done. done.
Qed.

(** The naming convention itself: when neither the artist nor the
    title holds a dash or a space at either end, both come back as
    written. *)
Lemma guess_artist_title (d art ttl ext : str) :
  d ≠ [] → d ≠ ["/"%char] →
  "/"%char ∉ art → "-"%char ∉ art → trim art = art →
  "/"%char ∉ ttl → "-"%char ∉ ttl → trim ttl = ttl →
  "/"%char ∉ ext →
  guessMetadataFromPath (d ++ chars "/" ++ (art ++ chars " - " ++ ttl) ++ ext) ext
  = mkMetadata (Some art) (Some ttl) (basename d).
Proof.
  intros Hd Hroot Ha Hda Hta Hb Hdb Htb Hext.
  destruct (guess_dash_pieces d (art ++ [" "%char]) (" "%char :: ttl) [] ext)
    as (H1 & H2 & H3); try done.
  - rewrite elem_of_app, list_elem_of_singleton. intros [?|?]; done.
  - rewrite elem_of_app, list_elem_of_singleton. intros [?|?]; done.
  - rewrite elem_of_cons. intros [?|?]; done.
  - rewrite elem_of_cons. intros [?|?]; done.
  - apply not_elem_of_nil.
  - by left.
  - rewrite PathFacts.trim_space_after in H1 by done.
    rewrite PathFacts.trim_space_before in H2 by done.
    replace (d ++ chars "/" ++ (art ++ chars " - " ++ ttl) ++ ext)
      with (d ++ "/"%char
              :: ((art ++ [" "%char]) ++ "-"%char :: (" "%char :: ttl) ++ []) ++ ext).
    + destruct (guessMetadataFromPath _ ext) as [x y z].
      cbn [artist title album] in H1, H2, H3. by subst.
    + cbn [chars String.list_ascii_of_string app].
      by rewrite app_nil_r, <- (app_assoc art).
Qed.



(** C6 (the code at a failing input): the untagged file
    "Compilation/Artist - Song - Live.flac". Cutting the name at its
    first " - " makes the title "Song - Live"; the document upserted
    has the title "Song": what follows the second dash is dropped. *)
Theorem insertSong_title_stops_at_second_dash :
  let p := untagged "Compilation/Artist - Song - Live.flac" ".flac" in
  title (guess_first_separator (file p) (fileext p)) = Some (chars "Song - Live")
  ∧ artist (guess_first_separator (file p) (fileext p)) = Some (chars "Artist")
  ∧ d_title <$> insertSong p ∅ !! file p = Some (Some (chars "Song"))
  ∧ d_artist <$> insertSong p ∅ !! file p = Some (Some (chars "Artist"))
  ∧ d_album <$> insertSong p ∅ !! file p = Some (Some (chars "Compilation"))
  ∧ title (guessMetadataFromPath (file p) (fileext p))
    ≠ title (guess_first_separator (file p) (fileext p)).
Proof.
  split_and!; [reflexivity | reflexivity | | | | compute_done].
  all: unfold insertSong, findOneAndUpdate; by rewrite lookup_insert_eq.
Qed.

(** On the specification's own scenario the two readings agree. *)
Example guess_agrees_on_scenario :
  guessMetadataFromPath (chars "Compilation/Artist - Song Title.flac") (chars ".flac")
  = guess_first_separator (chars "Compilation/Artist - Song Title.flac") (chars ".flac").
Proof. reflexivity. Qed.

(** A tag that is all digits comes as a number: a zero is passed over
    for the guess, another number is kept and filed as its print. *)
Example numeric_tags :
  let p := mkProbeData (chars "Compilation/Artist - Song Title.flac") (chars ".flac")
             (Number (Int 0)) NoTag (Number (Int 1989)) (1505 # 10) (chars "flac") in
  song_of p
  = mkSongDoc (Some (chars "Song Title")) (Some (chars "Artist"))
              (Some (chars "1989")) (Int 150500) (chars "flac") (file p).
Proof. vm_compute. reflexivity. Qed.

(** ** Preparation *)

Lemma step_loaded (c : gset string) (o : op) : step (loaded c) o = loaded c.
Proof. by destruct o. Qed.

(** Whatever is called, the backend stays as it was loaded. *)
Lemma run_loaded (c : gset string) (ops : list op) :
  run ops (loaded c) = loaded c.
Proof.
  induction ops as [|o ops IH]; [done|].
  unfold run in *. cbn [foldl]. by rewrite step_loaded.
Qed.

(** C7 (the code at the specification's scenario): [prepare] is called
    twice in quick succession for the song "s1", which is neither
    prepared nor being prepared, on the backend as it is loaded. Both
    calls throw a [TypeError] at the read of
    [self.songsPreparing[song.songId]]: the first attaches no handle
    and starts no lookup, and the second caller is not told "already
    preparing" -- no callback runs at all. *)
Theorem prepare_twice_throws_twice :
  let b0 := loaded ∅ in
  let r1 := prepare "s1" 0 b0 in
  let r2 := prepare "s1" 1 (after r1) in
  r1 = Throws TypeError b0
  ∧ r2 = Throws TypeError b0
  ∧ handles_of "s1" (after r2) = []
  ∧ lookups (after r2) = []
  ∧ already_preparing (after r2) = []
  ∧ Local.trace (after r2) = [].
Proof. by split_and!. Qed.

(** C8 (the code, whatever is called and in whatever order): on the
    backend as it is loaded a [prepare] throws at its first read; so no
    song ever gets a handle, there is no [cancel] to call and no lookup
    to complete, and no callback is ever run. A preparation canceled
    before it starts is not answered with the cancellation error: it
    is not answered. *)
Theorem cancellation_is_never_reported (c : gset string) (ops : list op)
    (songId : string) (caller : nat) :
  let b := run ops (loaded c) in
  prepare songId caller b = Throws TypeError b
  ∧ handles b = []
  ∧ lookups b = []
  ∧ EvCallback caller (Error canceled_message) ∉ Local.trace b.
Proof.
  cbv zeta. rewrite run_loaded. split_and!; try done.
  apply not_elem_of_nil.
Qed.

(** ** Search *)

Lemma forEach_without_config (o : Self) (n : nat) (song : CatalogSong)
    (items : list CatalogSong) (acc : gmap string SearchResult * nat) :
  config o = None → forEach o n (song :: items) acc = None.
Proof. intros H. destruct acc as [songs cur]. cbn [forEach visit]. by rewrite H. Qed.

(** X27: what [search] comes to on the backend, whatever was called on
    it before: an error of the store is handed to [callback]; when
    nothing matches, [callback] gets an empty [results.songs]; and as
    soon as one document matches, the callback of [exec] throws a
    [TypeError] at the read of [self.config.searchResultCnt], and
    [callback] is not called. *)
Theorem search_answers_no_match (c : gset string) (ops : list op)
    (answer : string + list CatalogSong) :
  search (run ops (loaded c)) answer
  = match answer with
    | inl err => Called (inl err)
    | inr [] => Called (inr ∅)
    | inr (_ :: _) => Thrown TypeError
    end.
Proof.
  rewrite run_loaded. destruct answer as [err|[|song items]]; [done|done|].
  unfold search. by rewrite forEach_without_config.
Qed.

(** C5 (the code at the specification's scenario): ten documents
    match. The callback of [exec] throws a [TypeError] at the first of
    them, at the read of [self.config.searchResultCnt]; [callback] is
    not called, so that no result set, capped and scored or not,
    reaches the caller. *)
Theorem search_ten_matches_throws :
  length ten_matches = 10%nat
  ∧ search (loaded ∅) (inr ten_matches) = Thrown TypeError
  ∧ ∀ songs, search (loaded ∅) (inr ten_matches) ≠ Called (inr songs).
Proof. by split_and!. Qed.

End LocalFacts.

(** * More on the player core: dispatch, queue, event loop *)

Module LoopFacts.
Import Core CoreFacts Loop.

Ltac count_events modules :=
  rewrite ?entries_app, ?dispatches_app, ?(entries_hook_events modules),
    ?(dispatches_hook_events modules), ?entries_enter, ?entries_request,
    ?entries_timeout, ?dispatches_enter, ?dispatches_request,
    ?dispatches_timeout;
  repeat case_decide; try congruence; try lia.

(** ** Dispatch *)

(** X1: the modules before the first one whose hook answers a truthy
    value are tried in order, that module's hook is the last to run,
    the modules behind it are not touched, and the dispatch hands back
    that module; queue, slot, timers and pending work are as before. *)
Theorem callHooks_stops_at_first_truthy
    (pre post : list (string * Module_)) (name : string) (m : Module_)
    (f : hookfn) (hook : string) (arg : hookarg) (w : World) :
  all_falsy hook (state w) arg pre →
  m hook = Some f →
  truthy (f (state w) arg) = true →
  _callHooks (pre ++ (name, m) :: post) hook arg w
  = Ok (VObj name)
       (mkWorld (state w) (preparing w) (timers w)
          (trace w ++ EvDispatch hook :: invoked hook pre ++ [EvHook name hook])).
Proof.
  intros Hpre Hm Ht. rewrite callHooks_run. unfold hook_result, hook_events.
  by rewrite (find_module_first_truthy _ _ _ _ _ _ f).
Qed.

Lemma callHooks_stops_at_first_truthy_witness :
  _callHooks (modules_ABC "onSongEnd") "onSongEnd" ArgNone (idle_world [song_s1])
  = Ok (VObj "B")
       (mkWorld (state (idle_world [song_s1])) [] []
          [EvDispatch "onSongEnd"; EvHook "A" "onSongEnd"; EvHook "B" "onSongEnd"]).
Proof.
  apply (callHooks_stops_at_first_truthy
           [("A", single_hook "onSongEnd" VUndefined)]
           [("C", single_hook "onSongEnd" (VBool true))]
           "B" (single_hook "onSongEnd" (VStr "err")) (λ _ _, VStr "err")
           "onSongEnd" ArgNone (idle_world [song_s1])); [|reflexivity..].
  intros n m f Heq%list_elem_of_singleton Hm.
  injection Heq as -> ->. by injection Hm as <-.
Defined.

(** X2: when no hook answers a truthy value -- none is implemented, or
    all answer falsy -- every module that implements the hook is run,
    in order, and the dispatch hands back [undefined]. *)
Theorem callHooks_none_truthy (modules : list (string * Module_))
    (hook : string) (arg : hookarg) (w : World) :
  all_falsy hook (state w) arg modules →
  _callHooks modules hook arg w
  = Ok VUndefined
       (mkWorld (state w) (preparing w) (timers w)
          (trace w ++ EvDispatch hook :: invoked hook modules)).
Proof.
  intros Hall. rewrite callHooks_run. unfold hook_result, hook_events.
  by rewrite find_module_all_falsy.
Qed.

Lemma callHooks_none_truthy_witness :
  _callHooks [("A", single_hook "onSongEnd" VUndefined);
              ("D", single_hook "onSongChange" (VStr "err"))]
    "onSongEnd" ArgNone (idle_world [])
  = Ok VUndefined
       (mkWorld (state (idle_world [])) [] []
          [EvDispatch "onSongEnd"; EvHook "A" "onSongEnd"]).
Proof.
  apply (callHooks_none_truthy
           [("A", single_hook "onSongEnd" VUndefined);
            ("D", single_hook "onSongChange" (VStr "err"))]
           "onSongEnd" ArgNone (idle_world [])).
  intros n m f [Heq|Hin]%elem_of_cons Hm.
  - injection Heq as -> ->. by injection Hm as <-.
  - apply list_elem_of_singleton in Hin. injection Hin as -> ->. done.
Defined.

(** ** The queue helpers *)

Local Abbreviation has_id v := (λ s : Song, strict_eq (id s) v = true).

Lemma splice_first_absent v q : find_id v q = None → splice_first v q = q.
Proof.
  induction q as [|s q IH]; [done|]. simpl.
  destruct (strict_eq (id s) v); [done|]. intros H. by rewrite IH.
Qed.

Lemma splice_first_present v q s :
  find_id v q = Some s →
  ∃ before behind,
    q = before ++ s :: behind
    ∧ find_id v before = None
    ∧ strict_eq (id s) v = true
    ∧ splice_first v q = before ++ behind.
Proof.
  induction q as [|x q IH]; [done|]. simpl.
  destruct (strict_eq (id x) v) eqn:E.
  - intros [= <-]. by exists [], q.
  - intros H. destruct (IH H) as (before & behind & -> & Hb & Hs & ->).
    exists (x :: before), behind. simpl. by rewrite E.
Qed.

(** X3: [_removeFromQueue] takes out the first queue entry that
    carries the id and only that one: the entries before it, none of
    which carries the id, and the entries behind it, whether they carry
    it or not, stay where they are; an id that is not queued -- the one
    of the playing song, say -- changes nothing. The slot, the timers
    and the pending work are never touched. *)
Theorem removeFromQueue_removes_first (songID : value) (w : World) :
  ∃ w', _removeFromQueue songID w = Ok () w'
    ∧ nowPlaying (state w') = nowPlaying (state w)
    ∧ backends (state w') = backends (state w)
    ∧ preparing w' = preparing w ∧ timers w' = timers w ∧ trace w' = trace w
    ∧ match find_id songID (queue (state w)) with
      | Some s =>
          ∃ before behind,
            queue (state w) = before ++ s :: behind
            ∧ find_id songID before = None
            ∧ strict_eq (id s) songID = true
            ∧ queue (state w') = before ++ behind
      | None => queue (state w') = queue (state w)
      end.
Proof.
  unfold _removeFromQueue. unmonad. eexists. split; [done|].
  cbn [state nowPlaying backends queue set_queue preparing timers trace].
  split_and!; try done.
  destruct (find_id songID (queue (state w))) as [s|] eqn:Hf.
  - by apply splice_first_present.
  - by apply splice_first_absent.
Qed.

Lemma find_id_Some v q s :
  find_id v q = Some s → strict_eq (id s) v = true ∧ s ∈ q.
Proof.
  induction q as [|x q IH]; [done|]. simpl.
  destruct (strict_eq (id x) v) eqn:E.
  - intros [= <-]. split; [done|left].
  - intros H. destruct (IH H). split; [done|by right].
Qed.

(** X4: [_searchQueue] reads and never writes; it answers [null]
    exactly when neither the queue nor the slot holds the id; what it
    answers carries the id and is the first such queue entry when
    there is one, the playing song otherwise. *)
Theorem searchQueue_finds_what_is_there (songID : value) (w : World) :
  ∃ r, _searchQueue songID w = Ok r w
    ∧ (r = None ↔ count_id songID (state w) = 0%nat)
    ∧ (∀ s, r = Some s →
            strict_eq (id s) songID = true
            ∧ (find_id songID (queue (state w)) = Some s
               ∨ (find_id songID (queue (state w)) = None
                  ∧ nowPlaying (state w) = Some s))).
Proof.
  destruct (searchQueue_run songID w) as (r & Hrun & Hr).
  exists r. split_and!; [done|done|].
  intros s ->. revert Hrun. unfold _searchQueue. unmonad.
  destruct (find_id songID (queue (state w))) as [x|] eqn:Hf.
  - intros [= <-]. split; [|by left]. by apply find_id_Some in Hf as [? _].
  - destruct (nowPlaying (state w)) as [np|]; [|done].
    destruct (strict_eq (id np) songID) eqn:E; [|done].
    intros [= <-]. split; [done|by right].
Qed.

(** ** The callbacks of [prepareSong] *)

Section Callbacks.

Variable modules : list (string * Module_).
Variable songDelayMs : Z.

(** X9: when the backend reports success for a preparation that was
    asked for while the song was already in the slot, [onSongPrepared]
    is dispatched and the queue head is prefetched, but the playing
    song is not stamped again, [onSongChange] is not dispatched and no
    timer is armed. *)
Theorem prepared_again_arms_no_timer (i : nat) (p : pending) (now : Z) (w : World) :
  preparing w !! i = Some p →
  p_cont p = KNowPlaying false →
  let w' := world_of (answer modules songDelayMs i (Prepared now) w) in
  state w' = state w
  ∧ timers w' = timers w
  ∧ dispatches "onSongPrepared" (trace w') = S (dispatches "onSongPrepared" (trace w))
  ∧ dispatches "onSongChange" (trace w') = dispatches "onSongChange" (trace w)
  ∧ match queue (state w) with
    | next :: _ =>
        if decide (backend next ∈ backends (state w)) then
          preparing w'
          = delete i (preparing w) ++ [mkPending (backend next) (id next) KNext]
        else preparing w' = delete i (preparing w)
    | [] => preparing w' = delete i (preparing w)
    end.
Proof.
  intros Hp Hk w'. subst w'. unfold answer. rewrite Hp, Hk. cbn [run_cont].
  unfold onPrepared, prepareSong. unmonad. rewrite callHooks_run. cbn [state].
  destruct (queue (state w)) as [|next rest].
  - rewrite callHooks_run. cbn [world_of state timers trace preparing].
    split_and!; try done; count_events modules.
  - cbn [state].
    destruct (decide (backend next ∈ backends (state w)));
      cbn [world_of state timers trace preparing request];
      split_and!; try done; count_events modules.
Qed.

(** X10: when the backend reports an error for the prefetch of the
    queue head, the entry that is removed is the one at the head of
    the queue at that moment, whichever song the prefetch was for; the
    slot and the timers are not touched. With nothing queued any more,
    the callback throws a [TypeError] before it dispatches anything. *)
Theorem next_prepare_error_drops_head (i : nat) (p : pending) (w : World) :
  preparing w !! i = Some p →
  p_cont p = KNext →
  match queue (state w) with
  | next :: rest =>
      truthy (id next) = true →
      ∃ w', answer modules songDelayMs i Failed w = Ok () w'
        ∧ queue (state w') = rest
        ∧ nowPlaying (state w') = nowPlaying (state w)
        ∧ timers w' = timers w
        ∧ preparing w' = delete i (preparing w)
        ∧ dispatches "onNextSongPrepareError" (trace w')
          = S (dispatches "onNextSongPrepareError" (trace w))
  | [] =>
      answer modules songDelayMs i Failed w
      = Throw TypeError
          (mkWorld (state w) (delete i (preparing w)) (timers w) (trace w))
  end.
Proof.
  intros Hp Hk. unfold answer. rewrite Hp, Hk. cbn [run_cont].
  unfold onNextPrepareError, _removeFromQueue. unmonad. cbn [state].
  destruct (queue (state w)) as [|next rest] eqn:Hq; [done|].
  intros Hid. rewrite callHooks_run. cbn [state]. rewrite Hq.
  eexists. split; [done|].
  cbn [state queue nowPlaying set_queue timers preparing trace].
  rewrite ?Hq. cbn [splice_first]. rewrite strict_eq_refl by done.
  split_and!; try done; count_events modules.
Qed.

(** X13: when the backend reports an error for the song in the slot,
    whatever the world looks like, [onSongPrepareError] is dispatched
    once and the first queue entry with the song's id, if there is
    one, is spliced out; the song itself stays in the slot, no timer
    is armed or cleared and [_onQueueModify] is not entered. *)
Theorem prepare_error_keeps_playing_song
    (i : nat) (p : pending) (b : bool) (np : Song) (w : World) :
  preparing w !! i = Some p →
  p_cont p = KNowPlaying b →
  nowPlaying (state w) = Some np →
  ∃ w', answer modules songDelayMs i Failed w = Ok () w'
    ∧ nowPlaying (state w') = Some np
    ∧ queue (state w') = splice_first (id np) (queue (state w))
    ∧ timers w' = timers w
    ∧ preparing w' = delete i (preparing w)
    ∧ entries (trace w') = entries (trace w)
    ∧ dispatches "onSongPrepareError" (trace w')
      = S (dispatches "onSongPrepareError" (trace w)).
Proof.
  intros Hp Hk Hn. unfold answer. rewrite Hp, Hk. cbn [run_cont].
  by apply (onPrepareError_keeps_slot modules).
Qed.

End Callbacks.

Lemma prepared_again_arms_no_timer_witness :
  let w := mkWorld (state (playing_world [song_s2]))
             [mkPending "local" (VStr "s1") (KNowPlaying false)] [Int 1500] [] in
  timers (world_of (answer [] 500 0 (Prepared 7) w)) = [Int 1500]
  ∧ nowPlaying (state (world_of (answer [] 500 0 (Prepared 7) w))) = Some song_s1.
Proof.
  intros w.
  destruct (prepared_again_arms_no_timer [] 500 0
              (mkPending "local" (VStr "s1") (KNowPlaying false)) 7 w
              eq_refl eq_refl) as (Hs & Ht & _).
  split; [exact Ht | by rewrite Hs].
Defined.

Lemma next_prepare_error_drops_head_witness :
  let w := mkWorld (state (playing_world [song_s2]))
             [mkPending "local" (VStr "gone") KNext] [] [] in
  ∃ w', answer [] 500 0 Failed w = Ok () w' ∧ queue (state w') = [].
Proof.
  intros w.
  destruct (next_prepare_error_drops_head [] 500 0
              (mkPending "local" (VStr "gone") KNext) w eq_refl eq_refl eq_refl)
    as (w' & Hrun & Hq & _).
  by exists w'.
Defined.

Lemma prepare_error_keeps_playing_song_witness :
  let w := mkWorld (state (playing_world [song_s2]))
             [mkPending "local" (VStr "s1") (KNowPlaying false)] [Int 1500] [] in
  ∃ w', answer [] 500 0 Failed w = Ok () w'
        ∧ nowPlaying (state w') = Some song_s1 ∧ timers w' = [Int 1500].
Proof.
  intros w.
  destruct (prepare_error_keeps_playing_song [] 500 0
              (mkPending "local" (VStr "s1") (KNowPlaying false)) false song_s1 w
              eq_refl eq_refl eq_refl)
    as (w' & Hrun & Hn & _ & Ht & _).
  by exists w'.
Defined.

(** ** What the event loop keeps *)

Section Invariants.

Variable modules : list (string * Module_).
Variable songDelayMs : Z.

Local Abbreviation fresh := (λ p : pending, p_cont p = KNowPlaying true).

Lemma filter_delete_length {A} (P : A → Prop) `{∀ x, Decision (P x)}
    (l : list A) (i : nat) (x : A) :
  l !! i = Some x →
  (length (filter P (delete i l)) + (if decide (P x) then 1 else 0)
   = length (filter P l))%nat.
Proof.
  revert i. induction l as [|y l IH]; intros [|i] Hl; try done.
  - injection Hl as ->. change (delete 0%nat (x :: l)) with l. case_decide.
    + rewrite filter_cons_True by done. cbn [length]. lia.
    + rewrite filter_cons_False by done. lia.
  - change (delete (S i) (y :: l)) with (y :: delete i l).
    specialize (IH i Hl). destruct (decide (P y)).
    + rewrite !filter_cons_True by done. cbn [length]. lia.
    + rewrite !filter_cons_False by done. done.
Qed.

Lemma count_id_le_same_queue v st st' :
  queue st' = queue st →
  (match nowPlaying st' with
   | Some np' => ∃ np, nowPlaying st = Some np ∧ id np' = id np
   | None => True
   end) →
  (count_id v st' ≤ count_id v st)%nat.
Proof.
  unfold count_id. intros -> Hn. destruct (nowPlaying st') as [np'|]; [|lia].
  destruct Hn as (np & -> & ->). lia.
Qed.

Lemma count_id_le_spliced v x st :
  (count_id v (set_queue (splice_first x (queue st)) st) ≤ count_id v st)%nat.
Proof.
  unfold count_id. cbn [queue nowPlaying set_queue].
  pose proof (filter_splice_first_le v x (queue st)). lia.
Qed.

(** What a callback of [prepareSong] does to the part of the world the
    two invariants look at. *)
Lemma run_cont_effect (k : cont) (o : outcome) (w : World) :
  let w' := world_of (run_cont modules songDelayMs k o w) in
  (∀ v, count_id v (state w') ≤ count_id v (state w))%nat
  ∧ (nowPlaying (state w') = None ↔ nowPlaying (state w) = None)
  ∧ starting w' = starting w
  ∧ length (timers w')
    = (length (timers w) + if arms k o (state w) then 1 else 0)%nat.
Proof.
  cbv zeta.
  assert (∀ x, ∀ v, count_id v (set_queue (splice_first x (queue (state w)))
                                  (state w)) ≤ count_id v (state w))%nat
    as Hsplice by (intros x v; apply count_id_le_spliced).
  assert (∀ now np, nowPlaying (state w) = Some np →
            ∀ v, count_id v (set_nowPlaying
                               (Some (set_playbackStart (Some now) np)) (state w))
                 ≤ count_id v (state w))%nat as Hstamp.
  { intros now np Hn v. apply count_id_le_same_queue; [done|].
    cbn [nowPlaying set_nowPlaying]. eauto. }
  destruct k as [[|]|], o as [now|]; cbn [run_cont];
    unfold arms, onPrepared, onPrepareError, onNextPrepared, onNextPrepareError,
      _removeFromQueue, prepareSong, setTimeout, request, starting;
    unmonad;
    destruct (nowPlaying (state w)) as [np|] eqn:Hn;
    destruct (queue (state w)) as [|next rest] eqn:Hq;
    repeat (first
      [ rewrite callHooks_run
      | rewrite Hn
      | rewrite Hq
      | progress cbn [state queue nowPlaying backends set_nowPlaying set_queue
                      preparing timers trace world_of]
      | match goal with
        | |- context [decide (?x ∈ backends (state w))] =>
            destruct (decide (x ∈ backends (state w)))
        end ]);
    rewrite ?filter_app, ?length_app;
    rewrite ?filter_cons_False by (cbn [p_cont]; done);
    split_and!;
    try (rewrite <- ?Hq, <- ?Hn; by eauto);
    try done; try (simpl; lia).
Qed.

(** The two invariants look at the queue, the slot, the timers and the
    pending work only. *)
Lemma one_playback_same (w w' : World) :
  nowPlaying (state w') = nowPlaying (state w) →
  timers w' = timers w → preparing w' = preparing w →
  one_playback w → one_playback w'.
Proof.
  unfold one_playback, starting. by intros -> -> ->.
Qed.

Lemma onQueueModify_one_playback (w : World) :
  one_playback w → one_playback (world_of (_onQueueModify modules w)).
Proof.
  intros [Hle Hnone].
  destruct (queue (state w)) as [|head rest] eqn:Hq.
  { rewrite onQueueModify_empty by done.
    by apply (one_playback_same w). }
  destruct (nowPlaying (state w)) as [np|] eqn:Hn.
  - rewrite (onQueueModify_occupied _ _ _ _ _ Hq Hn).
    unfold one_playback, starting in *.
    case_decide; cbn [world_of state timers preparing]; rewrite Hn;
      rewrite ?filter_app, ?length_app;
      rewrite ?filter_cons_False by (cbn [p_cont]; done);
      (split; [simpl; lia|done]).
  - rewrite (onQueueModify_promote _ _ _ _ Hq Hn).
    destruct (Hnone eq_refl) as [Ht Hs].
    unfold one_playback, starting, promote in *. rewrite Hq, Hn.
    case_decide; cbn [world_of state timers preparing nowPlaying];
      rewrite ?filter_app, ?length_app, Ht, ?Hs;
      rewrite ?filter_cons_True by (cbn [p_cont]; done);
      (split; [simpl; lia|done]).
Qed.

Lemma onQueueModify_unique_ids (w : World) :
  unique_ids (state w) →
  unique_ids (state (world_of (_onQueueModify modules w))).
Proof.
  intros Hu v. destruct (onQueueModify_world modules w) as (-> & _).
  by rewrite count_id_promote.
Qed.

(** [_addToQueue] leaves the world as it was given it. *)
Lemma addToQueue_world (s : Song) (w : World) :
  world_of (_addToQueue modules s w) = w.
Proof.
  rewrite addToQueue_run.
  by destruct (truthy (title s) && truthy (id s) && truthy (duration s)).
Qed.

Lemma react_one_playback (w : World) (i : input) :
  one_playback w → one_playback (react modules songDelayMs w i).
Proof.
  intros Hw. destruct i as [s|i o|i|name|name]; cbn [react].
  - by rewrite addToQueue_world.
  - unfold answer. destruct (preparing w !! i) as [p|] eqn:Hp; [|done].
    pose proof (filter_delete_length fresh (preparing w) i p Hp) as Hdel.
    match goal with |- one_playback (world_of (run_cont _ _ _ _ ?w0)) =>
      destruct (run_cont_effect (p_cont p) o w0) as (_ & Hnone & Hst & Hlen) end.
    destruct Hw as [Hle Hempty].
    unfold one_playback, starting in *. cbn [state preparing timers] in *.
    rewrite Hst.
    assert (arms (p_cont p) o (state w) = true →
            p_cont p = KNowPlaying true ∧ nowPlaying (state w) ≠ None) as Harms.
    { unfold arms. destruct (p_cont p) as [[|]|], o, (nowPlaying (state w));
        done. }
    assert (length (filter fresh (delete i (preparing w)))
            ≤ length (filter fresh (preparing w)))%nat as Hdel'
      by (destruct (decide (p_cont p = KNowPlaying true)); lia).
    destruct (arms (p_cont p) o (state w)) eqn:Ha.
    + destruct (Harms eq_refl) as [Hk Hn].
      rewrite decide_True in Hdel by done.
      split; [lia|]. intros Hn'. apply Hnone in Hn'. done.
    + split; [lia|].
      intros Hn'. apply Hnone in Hn'. destruct (Hempty Hn') as [Ht Hs].
      assert (length (timers w) = 0%nat) as Ht' by (by rewrite Ht).
      split; [|lia]. apply nil_length_inv. lia.
  - unfold expire. destruct (timers w !! i) as [t|] eqn:Ht; [|done].
    destruct Hw as [Hle Hempty].
    assert (length (delete i (timers w)) = 0%nat ∧ starting w = 0%nat
            ∧ nowPlaying (state w) ≠ None) as (Hlen & Hs & Hn).
    { pose proof (lookup_lt_Some _ _ _ Ht) as Hlt.
      rewrite length_delete by eauto. split_and!; [lia|lia|].
      intros Hn. destruct (Hempty Hn) as [Hnil _]. by rewrite Hnil in Ht. }
    destruct (nowPlaying (state w)) as [np|] eqn:Hnp; [|done].
    erewrite onTimeout_run by (cbn [state]; done).
    apply onQueueModify_one_playback.
    unfold one_playback, starting in *.
    cbn [state timers preparing nowPlaying set_nowPlaying].
    apply nil_length_inv in Hlen. rewrite Hlen. split; [simpl; lia|done].
  - unfold onBackendInit. unmonad. rewrite callHooks_run.
    by apply (one_playback_same w).
  - unfold onBackendInitError. unmonad. rewrite callHooks_run.
    by apply (one_playback_same w).
Qed.

Lemma react_unique_ids (w : World) (i : input) :
  unique_ids (state w) → unique_ids (state (react modules songDelayMs w i)).
Proof.
  intros Hw. destruct i as [s|i o|i|name|name]; cbn [react].
  - by rewrite addToQueue_world.
  - unfold answer. destruct (preparing w !! i) as [p|]; [|done].
    match goal with |- unique_ids (state (world_of (run_cont _ _ _ _ ?w0))) =>
      destruct (run_cont_effect (p_cont p) o w0) as (Hcount & _) end.
    intros v. specialize (Hcount v). specialize (Hw v).
    cbn [state] in Hcount. lia.
  - unfold expire. destruct (timers w !! i) as [t|]; [|done].
    destruct (nowPlaying (state w)) as [np|] eqn:Hnp.
    + erewrite onTimeout_run by (cbn [state]; done).
      apply onQueueModify_unique_ids. cbn [state].
      intros v. specialize (Hw v). unfold count_id in *.
      cbn [queue nowPlaying set_nowPlaying]. rewrite Hnp in Hw.
      destruct (strict_eq (id np) v); lia.
    + unfold onTimeout. unmonad. cbn [state]. by rewrite Hnp.
  - unfold onBackendInit. unmonad. by rewrite callHooks_run.
  - unfold onBackendInitError. unmonad. by rewrite callHooks_run.
Qed.

(** X11: whatever reaches the core -- requests to queue songs, answers
    of backends, timers running out, backends coming up, in any order
    and number --, when no two entries of the queue and the slot carry
    the same id to begin with, no two ever do. *)
Theorem ids_stay_unique (inputs : list input) (w : World) (v : value) :
  unique_ids (state w) →
  (count_id v (state (run modules songDelayMs inputs w)) ≤ 1)%nat.
Proof.
  intros Hw. revert v. change (unique_ids (state (run modules songDelayMs inputs w))).
  revert w Hw.
  induction inputs as [|i inputs IH]; intros w Hw; [done|].
  apply IH. by apply react_unique_ids.
Qed.

(** X12: with backends that answer each [prepareSong] once, at most
    one playback is under way at any time. When the timers armed and
    the promotions whose preparation is not answered yet number one at
    most together, and none while the slot is empty, then so they do
    after whatever reaches the core; so a timer that runs out always
    finds a song in the slot. *)
Theorem one_playback_at_a_time (inputs : list input) (w : World) :
  one_playback w →
  let w' := run modules songDelayMs inputs w in
  (length (timers w') + starting w' ≤ 1)%nat
  ∧ (nowPlaying (state w') = None → timers w' = [] ∧ starting w' = 0%nat).
Proof.
  intros Hw. change (one_playback (run modules songDelayMs inputs w)).
  revert w Hw.
  induction inputs as [|i inputs IH]; intros w Hw; [done|].
  apply IH. by apply react_one_playback.
Qed.

(** The player with nothing in it and nothing under way. *)
Lemma react_idle (w : World) (i : input) :
  queue (state w) = [] → nowPlaying (state w) = None →
  preparing w = [] → timers w = [] →
  let w' := react modules songDelayMs w i in
  queue (state w') = [] ∧ nowPlaying (state w') = None
  ∧ preparing w' = [] ∧ timers w' = [].
Proof.
  intros Hq Hn Hp Ht. destruct i as [s|i o|i|name|name]; cbn [react].
  - by rewrite addToQueue_world.
  - unfold answer. by rewrite Hp.
  - unfold expire. by rewrite Ht.
  - unfold onBackendInit. unmonad. by rewrite callHooks_run.
  - unfold onBackendInitError. unmonad. by rewrite callHooks_run.
Qed.

(** X26: as the code stands, nothing is ever played. Whatever reaches
    the core from outside, in any order and number, the queue and the
    slot stay empty, no preparation is asked of a backend and no timer
    is armed: the one way into the queue is [_addToQueue], which turns
    the song down or throws at the read of [req]. *)
Theorem nothing_is_ever_queued (inputs : list input) :
  let w := run modules songDelayMs inputs boot in
  queue (state w) = [] ∧ nowPlaying (state w) = None
  ∧ preparing w = [] ∧ timers w = [].
Proof.
  cbv zeta.
  assert (queue (state boot) = [] ∧ nowPlaying (state boot) = None
          ∧ preparing boot = [] ∧ timers boot = []) as Hboot by done.
  revert Hboot. generalize boot.
  induction inputs as [|i inputs IH]; intros w Hw; [done|].
  apply IH. destruct Hw as (? & ? & ? & ?). by apply react_idle.
Qed.

End Invariants.

Lemma unique_ids_sample : unique_ids (state (playing_world [song_s2])).
Proof.
  intros v. unfold count_id. cbn [playing_world state queue nowPlaying].
  destruct (strict_eq (id song_s2) v) eqn:E2, (strict_eq (id song_s1) v) eqn:E1.
  - apply strict_eq_eq in E1, E2. cbn in E1, E2. congruence.
  - rewrite filter_cons_True by done. simpl. lia.
  - rewrite filter_cons_False by (by rewrite E2). simpl. lia.
  - rewrite filter_cons_False by (by rewrite E2). simpl. lia.
Qed.

(** [s1] is playing with its timer armed and [s2] is queued; the timer
    runs out, and the backend answers for [s2]. *)
Lemma ids_stay_unique_witness :
  let w := mkWorld (state (playing_world [song_s2])) [] [Int 1500] [] in
  nowPlaying (state (run [] 500 [Expire 0; Answer 0 (Prepared 7)] w))
  = Some (set_playbackStart (Some 7) song_s2)
  ∧ (count_id (VStr "s2")
       (state (run [] 500 [Expire 0; Answer 0 (Prepared 7)] w)) ≤ 1)%nat.
Proof.
  intros w. split; [reflexivity|].
  apply (ids_stay_unique [] 500 [Expire 0; Answer 0 (Prepared 7)] w (VStr "s2")).
  exact unique_ids_sample.
Defined.

Lemma one_playback_at_a_time_witness :
  let w := mkWorld (state (playing_world [song_s2])) [] [Int 1500] [] in
  let w' := run [] 500 [Expire 0; Answer 0 (Prepared 7)] w in
  timers w' = [Int 2500] ∧ (length (timers w') + starting w' ≤ 1)%nat.
Proof.
  intros w w'. split; [vm_compute; reflexivity|].
  assert (one_playback w) as Hw.
  { split; [vm_compute; lia | discriminate]. }
  by destruct (one_playback_at_a_time [] 500 [Expire 0; Answer 0 (Prepared 7)] w Hw)
    as [H _].
Defined.

End LoopFacts.

(** * More on the local backend: metadata and ingestion *)

Module IngestFacts.
Import Path Local Ingest.

(** ** Metadata *)

Lemma skip_slashes_none (l : str) : "/"%char ∉ l → skip_slashes l = l.
Proof.
  destruct l as [|c l]; [done|]. intros [Hc _]%not_elem_of_cons. simpl.
  by rewrite PathFacts.is_slash_false.
Qed.

Lemma from_slash_none (l : str) : "/"%char ∉ l → from_slash l = [].
Proof.
  induction l as [|c l IH]; [done|]. intros [Hc Hl]%not_elem_of_cons. simpl.
  rewrite PathFacts.is_slash_false by done. by apply IH.
Qed.

(** X17: a file whose name holds no dash gets no title at all: the
    whole name, extension removed and trimmed, becomes the artist, the
    title is [undefined], and the album is the directory name. *)
Theorem guess_without_dash (d name ext : str) :
  d ≠ [] → d ≠ ["/"%char] →
  name ≠ [] → "/"%char ∉ name → "-"%char ∉ name →
  "/"%char ∉ ext →
  guessMetadataFromPath (d ++ "/"%char :: name ++ ext) ext
  = mkMetadata (Some (trim name)) None (basename d).
Proof.
  intros Hd Hroot Hne Hns Hnd Hext. unfold guessMetadataFromPath.
  rewrite PathFacts.basename_ext_strip by done.
  rewrite PathFacts.dirname_file; [|done|done|by destruct name|].
  2:{ rewrite elem_of_app. tauto. }
  by rewrite PathFacts.split_no_separator.
Qed.

Lemma guess_without_dash_witness :
  guessMetadataFromPath (chars "Compilation/Song Title.flac") (chars ".flac")
  = mkMetadata (Some (chars "Song Title")) None (chars "Compilation").
Proof.
  apply (guess_without_dash (chars "Compilation") (chars "Song Title")
           (chars ".flac")); compute_done.
Defined.

(** X18: a path with no directory part -- no slash in it -- gets the
    album ".", which is what [path.dirname] answers for it. *)
Theorem guess_album_without_directory (filePath fileExt : str) :
  filePath ≠ [] → "/"%char ∉ filePath →
  album (guessMetadataFromPath filePath fileExt) = chars ".".
Proof.
  intros Hne Hns. unfold guessMetadataFromPath. cbn [album].
  destruct filePath as [|c0 t]; [done|].
  apply not_elem_of_cons in Hns as [Hc Ht].
  unfold dirname.
  rewrite skip_slashes_none by (by rewrite elem_of_reverse).
  rewrite from_slash_none by (by rewrite elem_of_reverse).
  by rewrite PathFacts.is_slash_false.
Qed.

Lemma guess_album_without_directory_witness :
  album (guessMetadataFromPath (chars "Artist - Song.flac") (chars ".flac"))
  = chars ".".
Proof.
  apply (guess_album_without_directory (chars "Artist - Song.flac")
           (chars ".flac")); compute_done.
Defined.

(** ** Upserts *)

Lemma dom_insertSong (p : ProbeData) (songs : gmap str SongDoc) :
  dom (insertSong p songs) = {[file p]} ∪ dom songs.
Proof. unfold insertSong, findOneAndUpdate. apply dom_insert_L. Qed.

Section WorkerFacts.

Variable importFormats : list str.

Local Abbreviation worker := (worker importFormats).
Local Abbreviation ingest := (ingest importFormats).
Local Abbreviation upserted := (upserted importFormats).

Lemma ingest_snoc probes p songs :
  ingest (probes ++ [p]) songs = worker (ingest probes songs) p.
Proof. unfold Ingest.ingest. by rewrite foldl_snoc. Qed.

Lemma upserted_snoc probes p :
  upserted (probes ++ [p]) = upserted probes ++ upserted [p].
Proof. unfold Ingest.upserted. by rewrite omap_app. Qed.

Lemma upserted_one p :
  upserted [p]
  = match p with
    | Some probeData =>
        if validStreams importFormats probeData then [file probeData] else []
    | None => []
    end.
Proof.
  destruct p as [pd|]; [|done]. unfold Ingest.upserted. cbn.
  by destruct (validStreams importFormats pd).
Qed.


End WorkerFacts.

End IngestFacts.


(** * Start-up and end of the queue *)

Module ScenarioFacts.
Import Core CoreFacts Loop LoopFacts.

Section Scenarios.

Variable modules : list (string * Module_).
Variable songDelayMs : Z.

(** X14: a backend that comes up, and one that fails to. When [init]
    succeeds the backend is registered and [onBackendInit] is
    dispatched, once; a song of that backend at the head of the queue
    is then promoted and its preparation is asked of the backend. When
    [init] fails, [onBackendInitError] is dispatched and the backend is
    not registered: the same song is promoted all the same, and
    [_onQueueModify] throws a [TypeError] at the read of [prepareSong],
    with the song left in the slot and nothing asked of any backend. *)
Theorem backend_init_decides_preparation
    (backendName : string) (s : Song) (q : list Song) (w : World) :
  queue (state w) = s :: q →
  nowPlaying (state w) = None →
  backend s = backendName →
  backendName ∉ backends (state w) →
  let w1 := react modules songDelayMs w (BackendInit backendName) in
  let w1' := react modules songDelayMs w (BackendInitError backendName) in
  (backends (state w1) = {[backendName]} ∪ backends (state w)
   ∧ dispatches "onBackendInit" (trace w1)
     = S (dispatches "onBackendInit" (trace w))
   ∧ ∃ w2, _onQueueModify modules w1 = Ok () w2
           ∧ nowPlaying (state w2) = Some s
           ∧ queue (state w2) = splice_first (id s) q
           ∧ preparing w2
             = preparing w ++ [mkPending backendName (id s) (KNowPlaying true)])
  ∧ (backends (state w1') = backends (state w)
     ∧ dispatches "onBackendInitError" (trace w1')
       = S (dispatches "onBackendInitError" (trace w))
     ∧ ∃ w2', _onQueueModify modules w1' = Throw TypeError w2'
              ∧ nowPlaying (state w2') = Some s
              ∧ queue (state w2') = splice_first (id s) q
              ∧ preparing w2' = preparing w
              ∧ timers w2' = timers w).
Proof.
  intros Hq Hn Hb Hnot w1 w1'. subst w1 w1'. cbn [react]. split.
  - unfold onBackendInit. unmonad. rewrite callHooks_run.
    cbn [world_of state preparing timers trace register backends].
    split_and!; [done|count_events modules|].
    erewrite (onQueueModify_promote _ _ s q);
      [|cbn [state queue register]; done|cbn [state nowPlaying register]; done].
    cbn [state backends register].
    rewrite decide_True
      by (rewrite Hb; apply elem_of_union_l; by apply elem_of_singleton_2).
    eexists. split; [done|]. unfold promote.
    cbn [state queue nowPlaying register preparing]. rewrite Hq, Hn, Hb. done.
  - unfold onBackendInitError. unmonad. rewrite callHooks_run.
    cbn [world_of state preparing timers trace].
    split_and!; [done|count_events modules|].
    erewrite (onQueueModify_promote _ _ s q);
      [|cbn [state]; done|cbn [state]; done].
    cbn [state]. rewrite decide_False by (by rewrite Hb).
    eexists. split; [done|]. unfold promote.
    cbn [state preparing timers]. rewrite Hq, Hn. done.
Qed.

(** X25: the timer of the last song. When it runs out with nothing
    queued, [onSongEnd] and then [onEndOfQueue] are dispatched, once
    each, the slot is emptied, and nothing is asked of a backend and no
    timer is armed. *)
Theorem last_song_ends (i : nat) (t : num) (np : Song) (w : World) :
  timers w !! i = Some t →
  nowPlaying (state w) = Some np →
  queue (state w) = [] →
  ∃ w', expire modules i w = Ok () w'
    ∧ nowPlaying (state w') = None
    ∧ queue (state w') = []
    ∧ timers w' = delete i (timers w)
    ∧ preparing w' = preparing w
    ∧ dispatches "onSongEnd" (trace w') = S (dispatches "onSongEnd" (trace w))
    ∧ dispatches "onEndOfQueue" (trace w')
      = S (dispatches "onEndOfQueue" (trace w)).
Proof.
  intros Ht Hn Hq. unfold expire. rewrite Ht.
  erewrite onTimeout_run by (cbn [state]; done).
  rewrite onQueueModify_empty by (cbn [state queue set_nowPlaying]; done).
  eexists. split; [done|].
  cbn [state nowPlaying queue set_nowPlaying timers preparing trace].
  split_and!; try done; count_events modules.
Qed.

End Scenarios.

Lemma backend_init_decides_preparation_witness :
  let w := mkWorld (mkPlayerState [song_s1] None ∅) [] [] [] in
  (∃ w2, _onQueueModify [] (react [] 500 w (BackendInit "local")) = Ok () w2
         ∧ preparing w2 = [mkPending "local" (VStr "s1") (KNowPlaying true)])
  ∧ (∃ w2', _onQueueModify [] (react [] 500 w (BackendInitError "local"))
            = Throw TypeError w2'
            ∧ nowPlaying (state w2') = Some song_s1).
Proof.
  intros w.
  destruct (backend_init_decides_preparation [] 500 "local" song_s1 [] w
              eq_refl eq_refl eq_refl (not_elem_of_empty "local"))
    as ((_ & _ & w2 & H2 & _ & _ & Hp) & (_ & _ & w2' & H2' & Hn & _)).
  split; [by exists w2 | by exists w2'].
Defined.

Lemma last_song_ends_witness :
  let w := mkWorld (state (playing_world [])) [] [Int 1500] [] in
  ∃ w', expire [] 0 w = Ok () w' ∧ nowPlaying (state w') = None.
Proof.
  intros w.
  destruct (last_song_ends [] 0 (Int 1500) song_s1 w eq_refl eq_refl eq_refl)
    as (w' & Hrun & Hn & _).
  by exists w'.
Defined.

End ScenarioFacts.
